(** * prep: static extraction of SQL query text from Go sources

    A shallow embedding of [cmd/prep/prep.go]: the constant table that
    [main] fills from the type checker's definitions, the [queryFinder]
    visitor ([Visit], [processQuery]) and the traversal that [ast.Walk]
    performs with it, followed by the properties of the extraction. *)

From stdpp Require Import gmap strings list fin_maps sorting.


(** ** Outcomes of a run

    The program has two ways of not returning: [log.Fatalf], which prints
    its message and exits, and the run-time panic of an index expression
    that is out of range. *)

Inductive Outcome (A : Type) : Type :=
| Ok (a : A)
| Fatal (msg : string)
| Panic.

Arguments Ok {A} a.
Arguments Fatal {A} msg.
Arguments Panic {A}.

(** ** The finder

    [queryFinder] as the source declares it; [packageInfo] maps a constant
    name to the exact text of its value. *)

Record queryFinder : Type := mkFinder {
  packageInfo : gmap string string;
  queries : list string;
  nonUniqueNames : gset string
}.

(** The value built at [finder := &queryFinder{...}]: both maps empty, the
    slice nil. *)
Definition newFinder : queryFinder :=
  {| packageInfo := ∅; queries := []; nonUniqueNames := ∅ |}.

Definition setPackageInfo (f : queryFinder) (m : gmap string string) : queryFinder :=
  {| packageInfo := m; queries := queries f; nonUniqueNames := nonUniqueNames f |}.

Definition setNonUniqueNames (f : queryFinder) (s : gset string) : queryFinder :=
  {| packageInfo := packageInfo f; queries := queries f; nonUniqueNames := s |}.

Definition setQueries (f : queryFinder) (qs : list string) : queryFinder :=
  {| packageInfo := packageInfo f; queries := qs; nonUniqueNames := nonUniqueNames f |}.

(** Reading a Go [map[string]string] at a key: the zero value for a key
    that is absent. *)
Definition mapIndex (m : gmap string string) (k : string) : string :=
  default "" (m !! k).

(** ** Computations of the visitor

    The methods have a pointer receiver: they read and may write the one
    finder of the run, and they may not return. *)

Definition M (A : Type) : Type := queryFinder -> Outcome (A * queryFinder).

Definition ret {A} (a : A) : M A := fun f => Ok (a, f).

Definition bind {A B} (c : M A) (k : A -> M B) : M B :=
  fun f =>
    match c f with
    | Ok (a, f') => k a f'
    | Fatal msg => Fatal msg
    | Panic => Panic
    end.

Definition get : M queryFinder := fun f => Ok (f, f).

Definition put (f' : queryFinder) : M unit := fun _ => Ok (tt, f').

(** [log.Fatalf]: the message is printed and the process exits. *)
Definition fatalf {A} (msg : string) : M A := fun _ => Fatal msg.

Definition panic {A} : M A := fun _ => Panic.

Declare Scope finder_scope.
Delimit Scope finder_scope with finder.

Notation "x <- c ;; k" := (bind c (fun x => k))
  (at level 100, c at next level, right associativity) : finder_scope.
Notation "c ;;; k" := (bind c (fun _ => k))
  (at level 100, right associativity) : finder_scope.

Open Scope finder_scope.

(** ** The constant table (the loop over [TypesInfo.Defs] in [main])

    An entry of [Defs] binds a defining identifier to the object it
    defines.  The loop only asks whether the object is a [*types.Const]
    and, if so, for [Val().ExactString()]; an entry is modelled by the
    identifier's name and that much of the object.  Two defining
    identifiers may carry the same name. *)

Inductive Object : Type :=
| Const (ExactString : string)
| NotConst.

Definition Binding : Type := (string * Object)%type.

(** One iteration of the loop (lines 63-69): a constant whose name has an
    entry already marks the name and leaves the entry; one whose name has
    none makes the entry; any other object, nil included, is passed
    over. *)
Definition defsStep (f : queryFinder) (kv : Binding) : queryFinder :=
  match kv.2 with
  | Const exact =>
      match packageInfo f !! kv.1 with
      | Some _ => setNonUniqueNames f ({[ kv.1 ]} ∪ nonUniqueNames f)
      | None => setPackageInfo f (<[ kv.1 := exact ]> (packageInfo f))
      end
  | NotConst => f
  end.

(** The loop, over the bindings in the order in which the range statement
    yields them. *)
Definition collectFrom (f : queryFinder) (defs : list Binding) : queryFinder :=
  fold_left defsStep defs f.

Definition collectConstants (defs : list Binding) : queryFinder :=
  collectFrom newFinder defs.

(** ** Syntax trees

    The node kinds that [Visit] and [processQuery] tell apart, and one
    constructor for every other kind of [ast.Node], which keeps only the
    list of its non-nil children in the order [ast.Walk] goes through
    them. *)

Inductive Token : Type := INT | FLOAT | IMAG | CHAR | STRING.

#[local] Unset Elimination Schemes.

Inductive Node : Type :=
| BasicLit (Kind : Token) (Value : string)
| Ident (Name : string)
| SelectorExpr (X : Node) (Sel : string)
| CallExpr (Fun : Node) (Args : list Node)
| OtherNode (children : list Node).

#[local] Set Elimination Schemes.

(** The children of a node, in the order of [ast.Walk]. *)
Definition children (node : Node) : list Node :=
  match node with
  | BasicLit _ _ => []
  | Ident _ => []
  | SelectorExpr x sel => [x; Ident sel]
  | CallExpr fn args => fn :: args
  | OtherNode cs => cs
  end.

(** [fCall.Args[i]]: the element, or the index-out-of-range panic. *)
Definition indexArgs (args : list Node) (i : nat) : M Node :=
  match args !! i with
  | Some a => ret a
  | None => panic
  end.

(** ** The method table (lines 140-150) *)

Definition methodImplements : gmap string string :=
  list_to_map
    [ ("ExecContext", "ExecContext");
      ("QueryContext", "QueryContext");
      ("QueryRowContext", "QueryRowContext");
      ("NamedExecContext", "NamedExecContext");
      ("GetContext", "GetContext");
      ("SelectContext", "SelectContext");
      ("NamedQueryContext", "NamedQueryContext");
      ("PrepareContext", "PrepareContext");
      ("PrepareNamedContext", "PrepareNamedContext") ].

(** ** processQuery (lines 187-198) *)

(** The text that [log.Fatalf] formats. *)
Definition fatalMessage (name : string) : string :=
  "constant already defined, need unique name for " +:+ name.

Definition processQuery (queryArg : Node) : M string :=
  match queryArg with
  | BasicLit _ value => ret value
  | Ident name =>
      f <- get ;;
      if decide (name ∈ nonUniqueNames f)
      then fatalf (fatalMessage name)
      else ret (mapIndex (packageInfo f) name)
  | _ => ret ""
  end.

(** ** Visit (lines 153-182)

    The result is [true] when the method returns the finder itself and
    [false] when it returns nil.  The two cases of the switch are the
    lists [queryAtOne] and [queryAtTwo]. *)

Definition queryAtOne : list string :=
  [ "ExecContext"; "QueryContext"; "QueryRowContext"; "NamedExecContext";
    "NamedQueryContext"; "PrepareContext"; "PrepareNamedContext" ].

Definition queryAtTwo : list string := [ "GetContext"; "SelectContext" ].

Definition appendQuery (query : string) : M unit :=
  f <- get ;; put (setQueries f (queries f ++ [query])).

Definition Visit (node : option Node) : M bool :=
  match node with
  | Some (CallExpr (SelectorExpr _ sel) args) =>
      let interfaceName := mapIndex methodImplements sel in
      if decide (interfaceName = "") then ret true
      else
        query <- (if decide (sel ∈ queryAtOne)
                  then (a <- indexArgs args 1 ;; processQuery a)
                  else if decide (sel ∈ queryAtTwo)
                  then (a <- indexArgs args 2 ;; processQuery a)
                  else ret "") ;;
        (if decide (query = "") then ret tt else appendQuery query) ;;;
        ret false
  | _ => ret true
  end.

(** ** ast.Walk

    [Walk] calls [Visit] on the node; when the visitor returned is not nil
    it walks the children in order and then calls [Visit] with nil.  The
    selector of a [SelectorExpr] is an identifier node, the last child. *)

Definition walkIdent (name : string) : M unit :=
  w <- Visit (Some (Ident name)) ;;
  if w then (Visit None ;;; ret tt) else ret tt.

Fixpoint Walk (node : Node) : M unit :=
  w <- Visit (Some node) ;;
  if w then
    (match node with
     | BasicLit _ _ => ret tt
     | Ident _ => ret tt
     | SelectorExpr x sel => Walk x ;;; walkIdent sel
     | CallExpr fn args =>
         Walk fn ;;;
         (fix walkList (l : list Node) : M unit :=
            match l with
            | [] => ret tt
            | c :: l' => Walk c ;;; walkList l'
            end) args
     | OtherNode children =>
         (fix walkList (l : list Node) : M unit :=
            match l with
            | [] => ret tt
            | c :: l' => Walk c ;;; walkList l'
            end) children
     end) ;;;
    Visit None ;;; ret tt
  else ret tt.

Fixpoint walkList (l : list Node) : M unit :=
  match l with
  | [] => ret tt
  | c :: l' => Walk c ;;; walkList l'
  end.

(** The loop [for _, file := range astPackage.Files { ast.Walk(finder, file) }],
    over the files in the order in which the range statement yields them. *)
Definition walkFiles (files : list Node) : M unit := walkList files.

(** The core of [main]: the table, then the traversal; the result is the
    slice handed to [uniqueStrings]. *)
Definition run (defs : list Binding) (files : list Node) : Outcome (list string) :=
  match walkFiles files (collectConstants defs) with
  | Ok (_, f) => Ok (queries f)
  | Fatal msg => Fatal msg
  | Panic => Panic
  end.

(** ** Vocabulary of the properties *)

(** A selector name is recognized when the table has it. *)
Definition recognized (sel : string) : Prop :=
  mapIndex methodImplements sel <> "".

(** A qualifying call: [x.sel(args)] with [sel] recognized. *)
Definition qualifyingCall (x : Node) (sel : string) (args : list Node) : Node :=
  CallExpr (SelectorExpr x sel) args.

(** What a visit of a qualifying call does once the query argument is
    known to sit at index [i]. *)
Definition extractAt (i : nat) (args : list Node) : M bool :=
  a <- indexArgs args i ;;
  query <- processQuery a ;;
  (if decide (query = "") then ret tt else appendQuery query) ;;;
  ret false.

(** The finder with [p] put in front of its accumulated queries. *)
Definition prefixed (p : list string) (f : queryFinder) : queryFinder :=
  setQueries f (p ++ queries f).

Definition mapOutcome {A B} (g : A -> B) (o : Outcome A) : Outcome B :=
  match o with
  | Ok a => Ok (g a)
  | Fatal msg => Fatal msg
  | Panic => Panic
  end.

(** The exact texts of the constant definitions of [name] among [defs], in
    the order in which the loop meets them. *)
Fixpoint constDefs (name : string) (defs : list Binding) : list string :=
  match defs with
  | [] => []
  | (k, Const exact) :: rest =>
      if decide (k = name) then exact :: constDefs name rest
      else constDefs name rest
  | (_, NotConst) :: rest => constDefs name rest
  end.

(** Every ambiguous name has a table entry: what the loop in [main]
    establishes and the visitor keeps. *)
Definition ambiguousRecorded (f : queryFinder) : Prop :=
  forall name, name ∈ nonUniqueNames f -> is_Some (packageInfo f !! name).

(** A node that [Visit] takes for a call of a query-executing method. *)
Definition qualifying (node : Node) : Prop :=
  match node with
  | CallExpr (SelectorExpr _ sel) _ => recognized sel
  | _ => False
  end.

(** The finder [f'] has the tables of [f] and its queries, possibly with
    more after them. *)
Definition extends (f f' : queryFinder) : Prop :=
  exists new, f' = setQueries f (queries f ++ new).

(** A result with the state changed by [g]. *)
Definition onState {A} (g : queryFinder -> queryFinder) (r : A * queryFinder)
  : A * queryFinder := (r.1, g r.2).

(** The specification's Method Signature Table: a method name and the
    zero-based index of its query argument.  The source has no such table;
    it has [methodImplements] and the switch of [Visit], which are compared
    with this one below. *)
Definition methodSignatureTable : gmap string nat :=
  list_to_map
    [ ("ExecContext", 1); ("QueryContext", 1); ("QueryRowContext", 1);
      ("NamedExecContext", 1); ("NamedQueryContext", 1); ("PrepareContext", 1);
      ("PrepareNamedContext", 1); ("GetContext", 2); ("SelectContext", 2) ].

(** An argument that is neither a literal nor the name of a recorded
    constant. *)
Definition unresolvable (f : queryFinder) (a : Node) : Prop :=
  match a with
  | BasicLit _ _ => False
  | Ident name => packageInfo f !! name = None
  | _ => True
  end.

(** [reaches root f0 node f]: the walk of [root] started with finder [f0]
    comes to walk [node], the finder being [f] at that moment. *)
Inductive reaches : Node -> queryFinder -> Node -> queryFinder -> Prop :=
| reaches_here (node : Node) (f : queryFinder) : reaches node f node f
| reaches_child (root : Node) (f0 f1 f2 : queryFinder)
    (before : list Node) (c : Node) (after : list Node)
    (node : Node) (f : queryFinder) :
    Visit (Some root) f0 = Ok (true, f1) ->
    children root = before ++ c :: after ->
    walkList before f1 = Ok (tt, f2) ->
    reaches c f2 node f ->
    reaches root f0 node f.

(** The same for the loop over the files. *)
Definition reachesInFiles (files : list Node) (f0 : queryFinder)
    (node : Node) (f : queryFinder) : Prop :=
  exists before file after f1,
    files = before ++ file :: after /\
    walkList before f0 = Ok (tt, f1) /\
    reaches file f1 node f.

(** The double quote character and a text between double quotes. *)
Definition dquote : Ascii.ascii := Ascii.ascii_of_nat 34.
Definition backquote : Ascii.ascii := Ascii.ascii_of_nat 96.

Definition quoted (s : string) : string :=
  String dquote (s +:+ String dquote EmptyString).

Definition rawQuoted (s : string) : string :=
  String backquote (s +:+ String backquote EmptyString).

(** Two outcomes of a traversal, started from [f1] and from [f2], that
    differ at most in what the finders held at the start. *)
Definition agree (f1 f2 : queryFinder) (o1 o2 : Outcome (unit * queryFinder)) : Prop :=
  match o1, o2 with
  | Ok (_, f1'), Ok (_, f2') =>
      exists found,
        queries f1' = queries f1 ++ found /\ queries f2' = queries f2 ++ found /\
        (queries f1 = queries f2 -> f1' = f2')
  | Fatal msg1, Fatal msg2 => msg1 = msg2
  | Panic, Panic => True
  | _, _ => False
  end.

(** ** String literals and the constants they define

    A string literal of Go is interpreted (between double quotes) or raw
    (between back quotes).  A body is plain when it is made of printable
    ASCII characters other than the double quote, the backslash and the
    back quote: either form then denotes the body itself.  The parser
    keeps the token as it is written; the type checker keeps the value,
    and [ExactString] of a string value is [strconv.Quote] of it, which
    for a plain value is the value between double quotes. *)

Inductive StringLit : Type :=
| Interpreted (body : string)
| Raw (body : string).

Definition litBody (lit : StringLit) : string :=
  match lit with
  | Interpreted body => body
  | Raw body => body
  end.

(** The token text, the [Value] of the [BasicLit]. *)
Definition litText (lit : StringLit) : string :=
  match lit with
  | Interpreted body => quoted body
  | Raw body => rawQuoted body
  end.

Definition plainChar (c : Ascii.ascii) : bool :=
  let n := Ascii.nat_of_ascii c in
  (32 <=? n) && (n <=? 126) && negb (n =? 34) && negb (n =? 92) && negb (n =? 96).

Fixpoint plain (s : string) : bool :=
  match s with
  | EmptyString => true
  | String c s' => plainChar c && plain s'
  end.

(** The entry of [Defs] for [const name = lit], [lit] of plain body. *)
Definition constOfLit (name : string) (lit : StringLit) : Binding :=
  (name, Const (quoted (litBody lit))).

(** The literal as an argument of a call. *)
Definition litNode (lit : StringLit) : Node := BasicLit STRING (litText lit).

(** ** uniqueStrings (lines 124-137)

    Go orders strings byte by byte, as [String.leb] does.  [sort.Strings]
    leaves its argument in increasing order; there is one such arrangement
    of a list, so the sorting method does not show.  The range statement
    over the map yields the keys in an order of its own choosing, which is
    the argument [rangeOrder]. *)

Definition stringLe (s t : string) : Prop := String.leb s t = true.

#[local] Instance stringLe_dec : RelDecision stringLe.
Proof. intros s t. unfold stringLe. apply _. Defined.

Definition sortStrings (l : list string) : list string := merge_sort stringLe l.

(** The first loop: every string becomes a key of [m]. *)
Definition keySet (strs : list string) : gset string :=
  fold_left (fun m s => {[ s ]} ∪ m) strs ∅.

Definition uniqueStringsIn (rangeOrder : gset string -> list string)
    (strs : list string) : list string :=
  sortStrings (rangeOrder (keySet strs)).

(** An order in which a range statement may yield the keys: each key
    once. *)
Definition rangeOf (rangeOrder : gset string -> list string) : Prop :=
  forall m, rangeOrder m ≡ₚ elements m.

Definition uniqueStrings (strs : list string) : list string :=
  uniqueStringsIn elements strs.

(** ** generateCode (lines 105-120)

    The verb of every argument is [%s] and every argument is a string: it
    is written as it is.  [strings.Join] is [String.concat].  The bytes of
    the buffer are the characters of the result. *)

Definition newline : string := String (Ascii.ascii_of_nat 10) EmptyString.
Definition tab : string := String (Ascii.ascii_of_nat 9) EmptyString.

Definition generateCode (packageName importPath : string) (queries : list string)
  : string :=
  if decide (length queries = 0) then
    "//go:generate prep -f " +:+ importPath +:+ newline +:+ newline +:+
    "package " +:+ packageName +:+ newline +:+ newline +:+
    "func init() {" +:+ newline +:+
    tab +:+ "prepStatements = []string{}" +:+ newline +:+
    "}"
  else
    "//go:generate prep -f " +:+ importPath +:+ newline +:+ newline +:+
    "package " +:+ packageName +:+ newline +:+ newline +:+
    "func init() {" +:+ newline +:+
    tab +:+ "prepStatements = []string{" +:+ newline +:+
    tab +:+ tab +:+ String.concat ("," +:+ newline +:+ tab +:+ tab) queries +:+ "," +:+ newline +:+
    tab +:+ "}" +:+ newline +:+
    "}".

(** What [main] hands to [file.Write] (lines 57-84): the code generated
    from the queries of the traversal, made unique and sorted. *)
Definition generated (defs : list Binding) (packageName importPath : string)
    (files : list Node) : Outcome string :=
  mapOutcome (fun qs => generateCode packageName importPath (uniqueStrings qs))
    (run defs files).

(** ** Load, Dir and AST (lines 200-245)

    A Go result with an error beside it is a [Result]; an error is its
    message.  Of a [packages.Package] the program reads the fields below
    ([Defs] stands for [TypesInfo.Defs]), and of an [ast.Package] the name
    and the files; both maps are kept in the order in which [main] ranges
    over them.  What the libraries
    answer ([packages.Load], [filepath.Dir], [parser.ParseDir]) is an
    argument.  An index expression is [indexList]: it panics out of
    range. *)

Inductive Result (A : Type) : Type :=
| Value (a : A)
| Error (err : string).

Arguments Value {A} a.
Arguments Error {A} err.

Record Package : Type := mkPackage {
  PkgPath : string;
  PkgName : string;
  GoFiles : list string;
  OtherFiles : list string;
  Errors : list string;
  Defs : list Binding
}.

Record AstPackage : Type := mkAstPackage {
  AstName : string;
  AstFiles : list Node
}.

Definition indexList {A} (l : list A) (i : nat) : Outcome A :=
  match l !! i with
  | Some a => Ok a
  | None => Panic
  end.

Definition bindOutcome {A B} (o : Outcome A) (k : A -> Outcome B) : Outcome B :=
  match o with
  | Ok a => k a
  | Fatal msg => Fatal msg
  | Panic => Panic
  end.

Definition errPackageNotFound : string := "package not found".

Definition Load (loaded : Result (list Package)) : Outcome (Result Package) :=
  match loaded with
  | Error err => Ok (Error err)
  | Value pkgs =>
      if decide (length pkgs < 1) then Ok (Error errPackageNotFound)
      else
        bindOutcome (indexList pkgs 0) (fun p0 =>
          if decide (0 < length (Errors p0))
          then bindOutcome (indexList (Errors p0) 0) (fun e => Ok (Error e))
          else bindOutcome (indexList pkgs 0) (fun p => Ok (Value p)))
  end.

Definition Dir (filepathDir : string -> string) (p : Package) : Outcome string :=
  let files := GoFiles p ++ OtherFiles p in
  if decide (length files < 1) then Ok (PkgPath p)
  else bindOutcome (indexList files 0) (fun file => Ok (filepathDir file)).

Definition AST (filepathDir : string -> string)
    (parseDir : string -> Result (gmap string AstPackage)) (p : Package)
  : Outcome (Result AstPackage) :=
  bindOutcome (Dir filepathDir p) (fun dir =>
    match parseDir dir with
    | Error err => Ok (Error err)
    | Value pkgs =>
        match pkgs !! PkgName p with
        | Some ap => Ok (Value ap)
        | None => Ok (Value {| AstName := PkgName p; AstFiles := [] |})
        end
    end).

(** ** getPathToPackage and main (lines 30-103)

    The world outside the program: the value of the flag [-f] after
    [flag.Parse], and what the libraries and the file system answer.
    [quote] is the verb [%q] on a string. *)

Record World : Type := mkWorld {
  packagesLoad : string -> Result (list Package);
  filepathDir : string -> string;
  parserParseDir : string -> Result (gmap string AstPackage);
  buildImportDir : string -> Result string;
  filepathClean : string -> string;
  filepathJoin : string -> string -> string;
  quote : string -> string;
  osCreate : string -> Result unit;
  fileWrite : string -> string -> Result unit
}.

Definition getPathToPackage (w : World) (importPath : string) : Result string :=
  match buildImportDir w importPath with
  | Error err =>
      Error ("failed to detect absolute path of the package " +:+ quote w importPath
             +:+ ": " +:+ err)
  | Value dir => Value (filepathClean w dir)
  end.

(** What [main] does to the world, in order, and how it ends: the calls
    that took effect ([Close] is the deferred [file.Close], which
    [log.Fatalf] does not run), then a return, the exit of [log.Fatalf]
    or a panic. *)
Inductive Event : Type :=
| PrintDefaults
| Create (name : string)
| Write (name : string) (code : string)
| Close (name : string).

Inductive Exit : Type :=
| Returned
| Exited (msg : string)
| Panicked.

Definition main (w : World) (sourcePackageName : string) : list Event * Exit :=
  if decide (sourcePackageName = "") then ([PrintDefaults], Returned)
  else
    match Load (packagesLoad w sourcePackageName) with
    | Panic => ([], Panicked)
    | Fatal msg => ([], Exited msg)
    | Ok (Error err) => ([], Exited ("prep: " +:+ err))
    | Ok (Value sourcePackage) =>
        match AST (filepathDir w) (parserParseDir w) sourcePackage with
        | Panic => ([], Panicked)
        | Fatal msg => ([], Exited msg)
        | Ok (Error err) => ([], Exited ("failed to load package sources: " +:+ err))
        | Ok (Value astPackage) =>
            match walkFiles (AstFiles astPackage) (collectConstants (Defs sourcePackage)) with
            | Panic => ([], Panicked)
            | Fatal msg => ([], Exited msg)
            | Ok (_, finder) =>
                match getPathToPackage w sourcePackageName with
                | Error err => ([], Exited ("prep: " +:+ err))
                | Value path =>
                    let outputFileName := filepathJoin w path "prepared_statements.go" in
                    let queries := uniqueStrings (queries finder) in
                    let code := generateCode (AstName astPackage) sourcePackageName queries in
                    match osCreate w outputFileName with
                    | Error err =>
                        ([], Exited ("prep: failed to create file: " +:+ err))
                    | Value _ =>
                        match fileWrite w outputFileName code with
                        | Error err =>
                            ([Create outputFileName],
                             Exited ("prep: failed to write generated code to the file: "
                                     +:+ err))
                        | Value _ =>
                            ([Create outputFileName; Write outputFileName code;
                              Close outputFileName], Returned)
                        end
                    end
                end
            end
        end
    end.

(** ** Vocabulary of the further properties *)

(** The lines before the elements, common to the two formats. *)
Definition codeHeader (packageName importPath : string) : string :=
  "//go:generate prep -f " +:+ importPath +:+ newline +:+ newline +:+
  "package " +:+ packageName +:+ newline +:+ newline +:+
  "func init() {" +:+ newline +:+
  tab +:+ "prepStatements = []string{".

(** The line of one element. *)
Definition codeLine (query : string) : string :=
  newline +:+ tab +:+ tab +:+ query +:+ ",".

Fixpoint concatStrings (l : list string) : string :=
  match l with
  | [] => EmptyString
  | s :: l' => s +:+ concatStrings l'
  end.

(** [occursIn n root]: [n] is [root] or a node below it. *)
Inductive occursIn (n : Node) : Node -> Prop :=
| occurs_here : occursIn n n
| occurs_below (c root : Node) :
    c ∈ children root -> occursIn n c -> occursIn n root.

(** The queries that the traversal of [l] finds with the tables of [f]. *)
Definition foundBy (f : queryFinder) (l : list Node) : Outcome (list string) :=
  mapOutcome (fun r => queries r.2) (walkList l (setQueries f [])).

(** Two finders alike but for the table entries of ambiguous names. *)
Definition alikeButAmbiguous (f f' : queryFinder) : Prop :=
  nonUniqueNames f = nonUniqueNames f' /\
  queries f = queries f' /\
  forall name, name ∉ nonUniqueNames f -> packageInfo f !! name = packageInfo f' !! name.

(** Two outcomes with the same result or the same failure, the finders
    left being related by [R]. *)
Definition relatedBy {A} (R : queryFinder -> queryFinder -> Prop)
    (o o' : Outcome (A * queryFinder)) : Prop :=
  match o, o' with
  | Ok (a, g), Ok (a', g') => a = a' /\ R g g'
  | Fatal msg, Fatal msg' => msg = msg'
  | Panic, Panic => True
  | _, _ => False
  end.

(** What the argument [a] of a call resolves to with the tables of [f]. *)
Definition resolvesTo (f : queryFinder) (a : Node) (q : string) : Prop :=
  (exists k, a = BasicLit k q) \/
  (exists name, a = Ident name /\ packageInfo f !! name = Some q /\
                name ∉ nonUniqueNames f).

(** [q] is what the query argument of a recognized call in [root]
    resolves to. *)
Definition sourceIn (f : queryFinder) (root : Node) (q : string) : Prop :=
  exists x sel args i a,
    occursIn (qualifyingCall x sel args) root /\
    methodSignatureTable !! sel = Some i /\
    args !! i = Some a /\
    resolvesTo f a q.

(** ** The induction principle of syntax trees *)

Section NodeInduction.
Variable P : Node -> Prop.
Hypothesis step : forall node, Forall P (children node) -> P node.

Fixpoint Node_children_ind (node : Node) : P node :=
  step node
    (match node as n return Forall P (children n) with
     | BasicLit _ _ => @List.Forall_nil _ P
     | Ident _ => @List.Forall_nil _ P
     | SelectorExpr x sel =>
         @List.Forall_cons _ P x [Ident sel] (Node_children_ind x)
           (@List.Forall_cons _ P (Ident sel) [] (step (Ident sel) (@List.Forall_nil _ P))
              (@List.Forall_nil _ P))
     | CallExpr fn args =>
         @List.Forall_cons _ P fn args (Node_children_ind fn)
           ((fix all (l : list Node) : Forall P l :=
               match l with
               | [] => @List.Forall_nil _ P
               | c :: l' => @List.Forall_cons _ P c l' (Node_children_ind c) (all l')
               end) args)
     | OtherNode cs =>
         (fix all (l : list Node) : Forall P l :=
            match l with
            | [] => @List.Forall_nil _ P
            | c :: l' => @List.Forall_cons _ P c l' (Node_children_ind c) (all l')
            end) cs
     end).
End NodeInduction.

(** A decidable proposition without variables, settled by evaluation. *)
Ltac decide_closed := apply (bool_decide_unpack _); vm_compute; exact I.

(** ** Sample runs *)

Definition ctx : Node := Ident "ctx".
Definition db : Node := Ident "db".
Definition selectOne : string := quoted "SELECT 1".

(** Definitions with [Q] defined twice and [R] once. *)
Definition twiceQ : list Binding :=
  [ ("Q", Const selectOne); ("x", NotConst); ("R", Const (quoted "SELECT 2"));
    ("Q", Const (quoted "SELECT 3")) ].

(** Three files: a call with a literal, a call with the constant [R]
    after a destination, and no call of a method of the table. *)
Definition fileA : Node :=
  OtherNode [qualifyingCall db "ExecContext" [ctx; BasicLit STRING selectOne]].
Definition fileB : Node :=
  OtherNode [Ident "x";
             qualifyingCall db "GetContext" [ctx; Ident "dest"; Ident "R"]].
Definition fileC : Node :=
  OtherNode [Ident "x"; CallExpr (Ident "f") [BasicLit STRING selectOne];
             CallExpr (SelectorExpr db "Exec") [BasicLit STRING selectOne]].

(** Two loaded packages, one without errors and one with, and a world
    in which everything succeeds. *)
Definition cleanPackage : Package :=
  {| PkgPath := "example.com/pkg"; PkgName := "pkg";
     GoFiles := ["/src/pkg/a.go"; "/src/pkg/b.go"]; OtherFiles := ["/src/other/c.s"];
     Errors := []; Defs := twiceQ |}.

Definition brokenPackage : Package :=
  {| PkgPath := "example.com/pkg"; PkgName := "pkg"; GoFiles := []; OtherFiles := [];
     Errors := ["a.go:1:1: expected 'package'"; "b.go:2:1: undefined: x"]; Defs := [] |}.

(** A stand-in for [filepath.Dir] on the sample paths. *)
Definition sampleDir (file : string) : string :=
  if decide (file = "/src/pkg/a.go") then "/src/pkg" else "/src/other".

Definition sampleParse (dir : string) : Result (gmap string AstPackage) :=
  if decide (dir = "/src/pkg")
  then Value {[ "pkg_test" := {| AstName := "pkg_test"; AstFiles := [fileA] |} ]}
  else Error "no such directory".

Definition sampleWorld : World :=
  {| packagesLoad := fun _ => Value [cleanPackage];
     filepathDir := sampleDir;
     parserParseDir := fun _ =>
       Value {[ "pkg" := {| AstName := "pkg"; AstFiles := [fileA; fileB] |} ]};
     buildImportDir := fun _ => Value "/src/pkg/";
     filepathClean := fun _ => "/src/pkg";
     filepathJoin := fun dir name => dir +:+ "/" +:+ name;
     quote := quoted;
     osCreate := fun _ => Value tt;
     fileWrite := fun _ _ => Value tt |}.

Example run_literal :
  run [] [OtherNode [qualifyingCall db "ExecContext" [ctx; BasicLit STRING selectOne]]]
  = Ok [selectOne].
Proof. vm_compute. reflexivity. Qed.

Example run_constant :
  run [("Q", Const selectOne)]
      [OtherNode [qualifyingCall db "GetContext" [ctx; Ident "dest"; Ident "Q"]]]
  = Ok [selectOne].
Proof. vm_compute. reflexivity. Qed.

Example run_ambiguous :
  run [("Q", Const selectOne); ("x", NotConst); ("Q", Const (quoted "SELECT 2"))]
      [OtherNode [qualifyingCall db "QueryContext" [ctx; Ident "Q"]]]
  = Fatal "constant already defined, need unique name for Q".
Proof. vm_compute. reflexivity. Qed.

Example run_variable :
  run [("Q", Const selectOne)]
      [OtherNode [qualifyingCall db "QueryContext" [ctx; Ident "q"]]]
  = Ok [].
Proof. vm_compute. reflexivity. Qed.

Example run_short_call :
  run [] [qualifyingCall db "SelectContext" [ctx; Ident "dest"]] = Panic.
Proof. vm_compute. reflexivity. Qed.

Example run_nested :
  run []
      [OtherNode
         [qualifyingCall db "ExecContext"
            [ctx; qualifyingCall db "QueryRowContext" [ctx; BasicLit STRING selectOne]];
          qualifyingCall db "PrepareContext" [ctx; BasicLit STRING (rawQuoted "SELECT 2")]]]
  = Ok [rawQuoted "SELECT 2"].
Proof. vm_compute. reflexivity. Qed.

(** * Properties *)


(** ** The method table and the switch of [Visit] *)

Lemma recognized_cases (sel : string) :
  recognized sel -> sel ∈ queryAtOne \/ sel ∈ queryAtTwo.
Proof.
  unfold recognized, mapIndex. intros H.
  destruct (methodImplements !! sel) as [v|] eqn:E; [|done].
  apply elem_of_list_to_map_2 in E.
  unfold queryAtOne, queryAtTwo.
  repeat (apply elem_of_cons in E as [E|E];
          [inversion E; subst; set_solver|]).
  by apply elem_of_nil in E.
Qed.

Lemma queryAtOne_recognized (sel : string) : sel ∈ queryAtOne -> recognized sel.
Proof.
  unfold queryAtOne. intros H.
  repeat (apply elem_of_cons in H as [->|H]; [by vm_compute|]).
  by apply elem_of_nil in H.
Qed.

Lemma queryAtTwo_recognized (sel : string) : sel ∈ queryAtTwo -> recognized sel.
Proof.
  unfold queryAtTwo. intros H.
  repeat (apply elem_of_cons in H as [->|H]; [by vm_compute|]).
  by apply elem_of_nil in H.
Qed.

Lemma queryAtTwo_not_one (sel : string) : sel ∈ queryAtTwo -> sel ∉ queryAtOne.
Proof.
  unfold queryAtTwo. intros H.
  repeat (apply elem_of_cons in H as [->|H]; [decide_closed|]).
  by apply elem_of_nil in H.
Qed.

Lemma Visit_at_one (x : Node) (sel : string) (args : list Node) (f : queryFinder) :
  sel ∈ queryAtOne ->
  Visit (Some (qualifyingCall x sel args)) f = extractAt 1 args f.
Proof.
  intros H. pose proof (queryAtOne_recognized _ H) as R.
  unfold Visit, qualifyingCall, extractAt.
  rewrite decide_False by exact R. rewrite decide_True by exact H.
  unfold bind, indexArgs. destruct (args !! 1); reflexivity.
Qed.

Lemma Visit_at_two (x : Node) (sel : string) (args : list Node) (f : queryFinder) :
  sel ∈ queryAtTwo ->
  Visit (Some (qualifyingCall x sel args)) f = extractAt 2 args f.
Proof.
  intros H. pose proof (queryAtTwo_recognized _ H) as R.
  unfold Visit, qualifyingCall, extractAt.
  rewrite decide_False by exact R.
  rewrite decide_False by (by apply queryAtTwo_not_one).
  rewrite decide_True by exact H.
  unfold bind, indexArgs. destruct (args !! 2); reflexivity.
Qed.

Lemma Visit_unrecognized (x : Node) (sel : string) (args : list Node) (f : queryFinder) :
  ~ recognized sel ->
  Visit (Some (CallExpr (SelectorExpr x sel) args)) f = Ok (true, f).
Proof.
  intros H. unfold Visit.
  destruct (decide (mapIndex methodImplements sel = "")) as [_|N]; [done|].
  by destruct H.
Qed.

Lemma Visit_nil (f : queryFinder) : Visit None f = Ok (true, f).
Proof. reflexivity. Qed.

(** ** [Walk], one level at a time *)

Lemma Walk_unfold (node : Node) (f : queryFinder) :
  Walk node f =
  (w <- Visit (Some node) ;;
   if w then (walkList (children node) ;;; Visit None ;;; ret tt) else ret tt) f.
Proof.
  destruct node as [k v|name|x sel|fn args|cs]; reflexivity.
Qed.

Lemma walkList_app (l1 l2 : list Node) (f : queryFinder) :
  walkList (l1 ++ l2) f = (walkList l1 ;;; walkList l2) f.
Proof.
  revert f. induction l1 as [|c l1 IH]; intros f; [reflexivity|].
  cbn [app walkList]. unfold bind in *.
  destruct (Walk c f) as [[[] f1]| |]; [|reflexivity..].
  apply IH.
Qed.

(** ** What the visitor does to the finder *)

Lemma processQuery_reads (a : Node) (f f' : queryFinder) (q : string) :
  processQuery a f = Ok (q, f') -> f' = f.
Proof.
  destruct a as [k v|name|x sel|fn args|cs]; cbn;
    unfold bind, get, fatalf, ret; try congruence.
  destruct (decide (name ∈ nonUniqueNames f)); congruence.
Qed.

Lemma extractAt_effect (i : nat) (args : list Node) (f f' : queryFinder) (w : bool) :
  extractAt i args f = Ok (w, f') ->
  w = false /\ (f' = f \/ exists q, q <> "" /\ f' = setQueries f (queries f ++ [q])).
Proof.
  unfold extractAt, bind, indexArgs.
  destruct (args !! i) as [a|]; [|discriminate]. cbn [ret].
  destruct (processQuery a f) as [[q f1]| |] eqn:E; [|discriminate..].
  apply processQuery_reads in E as ->.
  destruct (decide (q = "")) as [->|N]; cbn; intros [= <- <-]; eauto.
Qed.

Lemma Visit_effect (node : option Node) (f f' : queryFinder) (w : bool) :
  Visit node f = Ok (w, f') ->
  f' = f \/ exists q, q <> "" /\ f' = setQueries f (queries f ++ [q]).
Proof.
  destruct node as [[k v|name|x sel|fn args|cs]|]; cbn; try (intros [= <- <-]; by left).
  destruct fn as [k v|name|x sel|fn' args'|cs]; cbn; try (intros [= <- <-]; by left).
  destruct (decide (recognized sel)) as [R|R].
  - destruct (recognized_cases _ R) as [H|H].
    + intros E. change (Visit (Some (qualifyingCall x sel args)) f = Ok (w, f')) in E.
      rewrite Visit_at_one in E by done. by apply extractAt_effect in E as [_ ?].
    + intros E. change (Visit (Some (qualifyingCall x sel args)) f = Ok (w, f')) in E.
      rewrite Visit_at_two in E by done. by apply extractAt_effect in E as [_ ?].
  - intros E. change (Visit (Some (CallExpr (SelectorExpr x sel) args)) f = Ok (w, f')) in E.
    rewrite Visit_unrecognized in E by done. injection E as <- <-. by left.
Qed.

Lemma extends_refl (f : queryFinder) : extends f f.
Proof. exists []. destruct f. unfold setQueries; cbn. by rewrite app_nil_r. Qed.

Lemma extends_trans (f1 f2 f3 : queryFinder) :
  extends f1 f2 -> extends f2 f3 -> extends f1 f3.
Proof.
  intros [n1 ->] [n2 ->]. exists (n1 ++ n2).
  unfold setQueries; cbn. by rewrite app_assoc.
Qed.

Lemma Visit_extends (node : option Node) (f f' : queryFinder) (w : bool) :
  Visit node f = Ok (w, f') -> extends f f'.
Proof.
  intros E. apply Visit_effect in E as [->|(q & _ & ->)].
  - apply extends_refl.
  - by exists [q].
Qed.

Lemma walkList_extends_of (l : list Node) :
  Forall (fun c => forall f f' u, Walk c f = Ok (u, f') -> extends f f') l ->
  forall f f' u, walkList l f = Ok (u, f') -> extends f f'.
Proof.
  induction 1 as [|c l Hc _ IH]; intros f f' u; cbn.
  - intros [= _ <-]. apply extends_refl.
  - unfold bind. destruct (Walk c f) as [[[] f1]| |] eqn:E; [|discriminate..].
    intros El. exact (extends_trans _ _ _ (Hc _ _ _ E) (IH _ _ _ El)).
Qed.

Lemma Walk_extends (node : Node) (f f' : queryFinder) (u : unit) :
  Walk node f = Ok (u, f') -> extends f f'.
Proof.
  revert f f' u. induction node as [node IH] using Node_children_ind.
  intros f f' u. rewrite Walk_unfold. unfold bind.
  destruct (Visit (Some node) f) as [[w f1]| |] eqn:E; [|discriminate..].
  apply Visit_extends in E. destruct w.
  - destruct (walkList (children node) f1) as [[[] f2]| |] eqn:El; [|discriminate..].
    apply (walkList_extends_of _ IH) in El. cbn.
    intros [= _ <-]. exact (extends_trans _ _ _ E El).
  - by intros [= _ <-].
Qed.

Lemma walkList_extends (l : list Node) (f f' : queryFinder) (u : unit) :
  walkList l f = Ok (u, f') -> extends f f'.
Proof.
  apply walkList_extends_of. apply Forall_forall. intros c _ ?. apply Walk_extends.
Qed.

Lemma extends_packageInfo (f f' : queryFinder) :
  extends f f' -> packageInfo f' = packageInfo f.
Proof. by intros [new ->]. Qed.

Lemma extends_nonUniqueNames (f f' : queryFinder) :
  extends f f' -> nonUniqueNames f' = nonUniqueNames f.
Proof. by intros [new ->]. Qed.

Lemma extends_queries (f f' : queryFinder) :
  extends f f' -> exists new, queries f' = queries f ++ new.
Proof. intros [new ->]. by exists new. Qed.

(** ** Qualifying and other nodes *)

Lemma qualifying_dec (node : Node) : {qualifying node} + {~ qualifying node}.
Proof.
  destruct node as [k v|name|x sel|fn args|cs]; try (right; tauto).
  destruct fn as [k v|name|x sel|fn' args'|cs]; try (right; tauto).
  cbn. unfold recognized. destruct (decide (mapIndex methodImplements sel = "")); tauto.
Qed.

Lemma Visit_not_qualifying (node : Node) (f : queryFinder) :
  ~ qualifying node -> Visit (Some node) f = Ok (true, f).
Proof.
  destruct node as [k v|name|x sel|fn args|cs]; try reflexivity.
  destruct fn as [k v|name|x sel|fn' args'|cs]; try reflexivity.
  intros Q. apply Visit_unrecognized. exact Q.
Qed.

Lemma Visit_qualifying (node : Node) :
  qualifying node ->
  exists x sel args i,
    node = qualifyingCall x sel args /\
    (sel ∈ queryAtOne /\ i = 1 \/ sel ∈ queryAtTwo /\ i = 2) /\
    forall f, Visit (Some node) f = extractAt i args f.
Proof.
  destruct node as [k v|name|x sel|fn args|cs]; try done.
  destruct fn as [k v|name|x sel|fn' args'|cs]; try done.
  intros R. change (recognized sel) in R.
  destruct (recognized_cases _ R) as [H|H].
  - exists x, sel, args, 1. split; [done|]. split; [by left|].
    intros f. by apply Visit_at_one.
  - exists x, sel, args, 2. split; [done|]. split; [by right|].
    intros f. by apply Visit_at_two.
Qed.

(** ** The accumulated queries are a frame of the traversal *)

Lemma prefixed_prefixed (p q : list string) (f : queryFinder) :
  prefixed p (prefixed q f) = prefixed (p ++ q) f.
Proof. unfold prefixed, setQueries; cbn. by rewrite app_assoc. Qed.

Lemma processQuery_prefixed (p : list string) (a : Node) (f : queryFinder) :
  processQuery a (prefixed p f) = mapOutcome (onState (prefixed p)) (processQuery a f).
Proof.
  destruct a as [k v|name|x sel|fn args|cs]; try reflexivity.
  cbn. unfold bind, get. cbn.
  destruct (decide (name ∈ nonUniqueNames f)); reflexivity.
Qed.

Lemma extractAt_prefixed (p : list string) (i : nat) (args : list Node) (f : queryFinder) :
  extractAt i args (prefixed p f) = mapOutcome (onState (prefixed p)) (extractAt i args f).
Proof.
  unfold extractAt, bind, indexArgs.
  destruct (args !! i) as [a|]; [|reflexivity]. cbn [ret].
  rewrite processQuery_prefixed.
  destruct (processQuery a f) as [[q f1]| |] eqn:E; [|reflexivity..].
  apply processQuery_reads in E as ->. cbn.
  destruct (decide (q = "")); cbn; [reflexivity|].
  unfold onState, prefixed, setQueries; cbn. by rewrite app_assoc.
Qed.

Lemma Visit_prefixed (p : list string) (node : option Node) (f : queryFinder) :
  Visit node (prefixed p f) = mapOutcome (onState (prefixed p)) (Visit node f).
Proof.
  destruct node as [node|]; [|reflexivity].
  destruct (qualifying_dec node) as [Q|Q].
  - destruct (Visit_qualifying _ Q) as (x & sel & args & i & -> & _ & E).
    rewrite !E. apply extractAt_prefixed.
  - by rewrite !Visit_not_qualifying.
Qed.

Lemma walkList_prefixed_of (p : list string) (l : list Node) :
  Forall (fun c => forall f,
            Walk c (prefixed p f) = mapOutcome (onState (prefixed p)) (Walk c f)) l ->
  forall f, walkList l (prefixed p f) = mapOutcome (onState (prefixed p)) (walkList l f).
Proof.
  induction 1 as [|c l Hc _ IH]; intros f; [reflexivity|].
  cbn [walkList]. unfold bind. rewrite Hc.
  destruct (Walk c f) as [[[] f1]| |]; cbn; [apply IH|reflexivity..].
Qed.

Lemma Walk_prefixed (p : list string) (node : Node) (f : queryFinder) :
  Walk node (prefixed p f) = mapOutcome (onState (prefixed p)) (Walk node f).
Proof.
  revert f. induction node as [node IH] using Node_children_ind.
  intros f. rewrite !Walk_unfold. unfold bind. rewrite Visit_prefixed.
  destruct (Visit (Some node) f) as [[[] f1]| |]; cbn; try reflexivity.
  rewrite (walkList_prefixed_of p _ IH).
  destruct (walkList (children node) f1) as [[[] f2]| |]; reflexivity.
Qed.

Lemma walkList_prefixed (p : list string) (l : list Node) (f : queryFinder) :
  walkList l (prefixed p f) = mapOutcome (onState (prefixed p)) (walkList l f).
Proof.
  apply walkList_prefixed_of. apply Forall_forall. intros c _ ?. apply Walk_prefixed.
Qed.

Lemma prefixed_own_queries (f : queryFinder) :
  f = prefixed (queries f) (setQueries f []).
Proof. destruct f. unfold prefixed, setQueries; cbn. by rewrite app_nil_r. Qed.

(** ** The constant table *)

Lemma collectFrom_cons (f : queryFinder) (kv : Binding) (defs : list Binding) :
  collectFrom f (kv :: defs) = collectFrom (defsStep f kv) defs.
Proof. reflexivity. Qed.

Lemma collectFrom_app (f : queryFinder) (defs1 defs2 : list Binding) :
  collectFrom f (defs1 ++ defs2) = collectFrom (collectFrom f defs1) defs2.
Proof. apply fold_left_app. Qed.

Lemma constDefs_app (name : string) (defs1 defs2 : list Binding) :
  constDefs name (defs1 ++ defs2) = constDefs name defs1 ++ constDefs name defs2.
Proof.
  induction defs1 as [|[k [e|]] defs1 IH]; cbn; [done| |done].
  destruct (decide (k = name)); cbn; by rewrite IH.
Qed.

Lemma collectFrom_packageInfo (name : string) (defs : list Binding) (f : queryFinder) :
  packageInfo (collectFrom f defs) !! name =
  match packageInfo f !! name with
  | Some v => Some v
  | None => head (constDefs name defs)
  end.
Proof.
  revert f. induction defs as [|[k [e|]] defs IH]; intros f.
  - cbn. by destruct (packageInfo f !! name).
  - rewrite collectFrom_cons, IH. unfold defsStep. cbn.
    destruct (packageInfo f !! k) as [v|] eqn:Ek; cbn.
    + destruct (decide (k = name)) as [->|N]; [by rewrite Ek|done].
    + destruct (decide (k = name)) as [->|N].
      * by rewrite lookup_insert_eq, Ek.
      * by rewrite lookup_insert_ne.
  - rewrite collectFrom_cons, IH. reflexivity.
Qed.

Lemma collectFrom_nonUniqueNames (name : string) (defs : list Binding) (f : queryFinder) :
  name ∈ nonUniqueNames (collectFrom f defs) <->
  name ∈ nonUniqueNames f \/
  match packageInfo f !! name with
  | Some _ => constDefs name defs <> []
  | None => 2 <= length (constDefs name defs)
  end.
Proof.
  revert f. induction defs as [|[k [e|]] defs IH]; intros f.
  - cbn. destruct (packageInfo f !! name); cbn; [tauto|]. split; [tauto|].
    intros [H|H]; [done|lia].
  - rewrite collectFrom_cons, IH. unfold defsStep. cbn.
    destruct (packageInfo f !! k) as [v|] eqn:Ek; cbn.
    + rewrite elem_of_union, elem_of_singleton.
      destruct (decide (k = name)) as [->|N].
      * rewrite Ek. split; [|tauto]. intros _. by right.
      * destruct (packageInfo f !! name); (split; [intros [[H|H]|H]|]);
          try tauto; by subst.
    + destruct (decide (k = name)) as [->|N].
      * rewrite lookup_insert_eq, Ek. cbn.
        destruct (constDefs name defs) as [|w rest]; cbn; split; intros [H|H];
          try (by left); try (by destruct H); try lia; right; first [lia|done].
      * rewrite lookup_insert_ne by done. reflexivity.
  - rewrite collectFrom_cons, IH. reflexivity.
Qed.

Lemma collectFrom_ambiguousRecorded (defs : list Binding) (f : queryFinder) :
  ambiguousRecorded f -> ambiguousRecorded (collectFrom f defs).
Proof.
  intros Hf name. rewrite collectFrom_nonUniqueNames, collectFrom_packageInfo.
  intros [H|H].
  - destruct (Hf _ H) as [v ->]. eauto.
  - destruct (packageInfo f !! name); [eauto|].
    destruct (constDefs name defs); cbn in *; [lia|eauto].
Qed.

Lemma collectConstants_ambiguousRecorded (defs : list Binding) :
  ambiguousRecorded (collectConstants defs).
Proof.
  apply collectFrom_ambiguousRecorded. intros name H. cbn in H.
  by apply not_elem_of_empty in H.
Qed.

Lemma extends_ambiguousRecorded (f f' : queryFinder) :
  extends f f' -> ambiguousRecorded f -> ambiguousRecorded f'.
Proof. by intros [new ->]. Qed.

(** ** The signature table against the source *)

Lemma signature_cases (sel : string) (i : nat) :
  methodSignatureTable !! sel = Some i <->
  sel ∈ queryAtOne /\ i = 1 \/ sel ∈ queryAtTwo /\ i = 2.
Proof.
  split.
  - intros E. apply elem_of_list_to_map_2 in E.
    unfold queryAtOne, queryAtTwo.
    repeat (apply elem_of_cons in E as [E|E];
            [inversion E; subst; first [left; split; [decide_closed|done]
                                       |right; split; [decide_closed|done]]|]).
    by apply elem_of_nil in E.
  - unfold queryAtOne, queryAtTwo. intros [[H ->]|[H ->]];
      repeat (apply elem_of_cons in H as [->|H]; [by vm_compute|]);
      by apply elem_of_nil in H.
Qed.

Lemma signature_recognized (sel : string) :
  recognized sel <-> is_Some (methodSignatureTable !! sel).
Proof.
  split.
  - intros R. destruct (recognized_cases _ R) as [H|H].
    + exists 1. apply signature_cases. by left.
    + exists 2. apply signature_cases. by right.
  - intros [i E]. apply signature_cases in E as [[H _]|[H _]].
    + by apply queryAtOne_recognized.
    + by apply queryAtTwo_recognized.
Qed.

Lemma Visit_signature (x : Node) (sel : string) (args : list Node) (i : nat)
    (f : queryFinder) :
  methodSignatureTable !! sel = Some i ->
  Visit (Some (qualifyingCall x sel args)) f = extractAt i args f.
Proof.
  intros E. apply signature_cases in E as [[H ->]|[H ->]].
  - by apply Visit_at_one.
  - by apply Visit_at_two.
Qed.

(** ** Outcomes go up the traversal *)

Lemma Walk_not_visited_further (node : Node) (f : queryFinder) (o : Outcome (bool * queryFinder)) :
  Visit (Some node) f = o ->
  (forall f', o <> Ok (true, f')) ->
  Walk node f = mapOutcome (fun r => (tt, r.2)) o.
Proof.
  intros <- H. rewrite Walk_unfold. unfold bind.
  destruct (Visit (Some node) f) as [[[] f1]| |]; try reflexivity.
  by destruct (H f1).
Qed.

Lemma reaches_extends (root : Node) (f0 : queryFinder) (node : Node) (f : queryFinder) :
  reaches root f0 node f -> extends f0 f.
Proof.
  induction 1 as [node f|root f0 f1 f2 before c after node f Hv Hc Hb _ IH].
  - apply extends_refl.
  - apply Visit_extends in Hv. apply walkList_extends in Hb.
    exact (extends_trans _ _ _ Hv (extends_trans _ _ _ Hb IH)).
Qed.

Lemma reaches_fatal (root : Node) (f0 : queryFinder) (node : Node) (f : queryFinder)
    (msg : string) :
  reaches root f0 node f -> Walk node f = Fatal msg -> Walk root f0 = Fatal msg.
Proof.
  induction 1 as [node f|root f0 f1 f2 before c after node f Hv Hc Hb _ IH]; [done|].
  intros E. specialize (IH E). rewrite Walk_unfold. unfold bind. rewrite Hv, Hc.
  rewrite walkList_app. unfold bind. rewrite Hb. cbn [walkList]. unfold bind.
  by rewrite IH.
Qed.

Lemma reachesInFiles_extends (files : list Node) (f0 : queryFinder) (node : Node)
    (f : queryFinder) :
  reachesInFiles files f0 node f -> extends f0 f.
Proof.
  intros (before & file & after & f1 & -> & Hb & Hr).
  apply walkList_extends in Hb. apply reaches_extends in Hr.
  exact (extends_trans _ _ _ Hb Hr).
Qed.

Lemma reachesInFiles_fatal (files : list Node) (f0 : queryFinder) (node : Node)
    (f : queryFinder) (msg : string) :
  reachesInFiles files f0 node f -> Walk node f = Fatal msg ->
  walkFiles files f0 = Fatal msg.
Proof.
  intros (before & file & after & f1 & -> & Hb & Hr) E.
  unfold walkFiles. rewrite walkList_app. unfold bind. rewrite Hb.
  cbn [walkList]. unfold bind. by rewrite (reaches_fatal _ _ _ _ _ Hr E).
Qed.

(** ** Resolution of the query argument *)

Lemma processQuery_ambiguous (name : string) (f : queryFinder) :
  name ∈ nonUniqueNames f ->
  processQuery (Ident name) f = Fatal (fatalMessage name).
Proof.
  intros H. cbn. unfold bind, get. by rewrite decide_True.
Qed.

Lemma processQuery_fatal_only_ambiguous (a : Node) (f : queryFinder) (msg : string) :
  processQuery a f = Fatal msg ->
  exists name, a = Ident name /\ name ∈ nonUniqueNames f /\ msg = fatalMessage name.
Proof.
  destruct a as [k v|name|x sel|fn args|cs]; cbn; try discriminate.
  unfold bind, get. destruct (decide (name ∈ nonUniqueNames f)); [|discriminate].
  intros [= <-]. eauto.
Qed.

Lemma processQuery_never_panics (a : Node) (f : queryFinder) :
  processQuery a f <> Panic.
Proof.
  destruct a as [k v|name|x sel|fn args|cs]; cbn; try discriminate.
  unfold bind, get. destruct (decide (name ∈ nonUniqueNames f)); discriminate.
Qed.

Lemma processQuery_unresolvable (a : Node) (f : queryFinder) :
  ambiguousRecorded f -> unresolvable f a -> processQuery a f = Ok ("", f).
Proof.
  intros Hf. destruct a as [k v|name|x sel|fn args|cs]; cbn; try done.
  intros E. unfold bind, get.
  destruct (decide (name ∈ nonUniqueNames f)) as [H|H].
  - destruct (Hf _ H) as [v Ev]. congruence.
  - unfold mapIndex. by rewrite E.
Qed.

Lemma extractAt_fatal (i : nat) (args : list Node) (a : Node) (f : queryFinder)
    (msg : string) :
  args !! i = Some a -> processQuery a f = Fatal msg -> extractAt i args f = Fatal msg.
Proof.
  intros Ea E. unfold extractAt, bind, indexArgs. rewrite Ea. cbn [ret]. by rewrite E.
Qed.

Lemma extractAt_value (i : nat) (args : list Node) (a : Node) (f : queryFinder)
    (q : string) :
  args !! i = Some a -> processQuery a f = Ok (q, f) ->
  extractAt i args f =
  Ok (false, if decide (q = "") then f else setQueries f (queries f ++ [q])).
Proof.
  intros Ea E. unfold extractAt, bind, indexArgs. rewrite Ea. cbn [ret]. rewrite E.
  by destruct (decide (q = "")).
Qed.

Lemma Visit_ambiguous (x : Node) (sel : string) (args : list Node) (i : nat)
    (name : string) (f : queryFinder) :
  methodSignatureTable !! sel = Some i ->
  args !! i = Some (Ident name) ->
  name ∈ nonUniqueNames f ->
  Visit (Some (qualifyingCall x sel args)) f = Fatal (fatalMessage name).
Proof.
  intros Hs Ha Hn. rewrite (Visit_signature _ _ _ _ _ Hs).
  eapply extractAt_fatal; [exact Ha|]. by apply processQuery_ambiguous.
Qed.

Lemma Walk_ambiguous (x : Node) (sel : string) (args : list Node) (i : nat)
    (name : string) (f : queryFinder) :
  methodSignatureTable !! sel = Some i ->
  args !! i = Some (Ident name) ->
  name ∈ nonUniqueNames f ->
  Walk (qualifyingCall x sel args) f = Fatal (fatalMessage name).
Proof.
  intros Hs Ha Hn.
  by rewrite (Walk_not_visited_further _ _ _ (Visit_ambiguous x _ _ _ _ _ Hs Ha Hn)).
Qed.

Lemma collectConstants_repeated (defs : list Binding) (name : string) :
  2 <= length (constDefs name defs) -> name ∈ nonUniqueNames (collectConstants defs).
Proof.
  intros H. unfold collectConstants. rewrite collectFrom_nonUniqueNames. cbn.
  rewrite lookup_empty. by right.
Qed.

(** C1. When the query argument of a recognized call is an identifier of
    the non-unique set, [processQuery] does not return: it ends the process
    with the message that names the identifier.  So do the visit of the
    call, its walk, the walk of every tree and the loop over every list of
    files that come to that call.  The core yields no query list when its
    traversal comes to a call whose query argument is a name with two or
    more constant definitions. *)
Theorem ambiguous_constant_is_fatal (f : queryFinder) (x : Node) (sel : string)
    (args : list Node) (i : nat) (name : string) :
  methodSignatureTable !! sel = Some i ->
  args !! i = Some (Ident name) ->
  name ∈ nonUniqueNames f ->
  let call := qualifyingCall x sel args in
  let msg := "constant already defined, need unique name for " +:+ name in
  processQuery (Ident name) f = Fatal msg /\
  Visit (Some call) f = Fatal msg /\
  Walk call f = Fatal msg /\
  (forall root f0, reaches root f0 call f -> Walk root f0 = Fatal msg) /\
  (forall files f0, reachesInFiles files f0 call f -> walkFiles files f0 = Fatal msg) /\
  (forall defs files g,
     2 <= length (constDefs name defs) ->
     reachesInFiles files (collectConstants defs) call g ->
     run defs files = Fatal msg).
Proof.
  intros Hs Ha Hn call msg.
  assert (Hw : Walk call f = Fatal msg) by (by eapply Walk_ambiguous).
  split; [by apply processQuery_ambiguous|].
  split; [by eapply Visit_ambiguous|].
  split; [exact Hw|]. split; [|split].
  - intros root f0 Hr. by eapply reaches_fatal.
  - intros files f0 Hr. by eapply reachesInFiles_fatal.
  - intros defs files g Hd Hr. unfold run.
    assert (Hg : name ∈ nonUniqueNames g).
    { rewrite (extends_nonUniqueNames _ _ (reachesInFiles_extends _ _ _ _ Hr)).
      by apply collectConstants_repeated. }
    by rewrite (reachesInFiles_fatal _ _ _ _ _ Hr (Walk_ambiguous x _ _ _ _ _ Hs Ha Hg)).
Qed.

(** C2. The method names of the signature table are those the source
    recognizes, and the visit of a recognized call takes its query from the
    argument at the table's index: 1 for the seven direct methods, 2 for
    [GetContext] and [SelectContext].  For these two the visit is the same
    whatever stands at the other indexes, index 1 included. *)
Theorem query_argument_position (sel : string) :
  (recognized sel <-> is_Some (methodSignatureTable !! sel)) /\
  (forall i, methodSignatureTable !! sel = Some i ->
     (sel ∈ [ "ExecContext"; "QueryContext"; "QueryRowContext"; "NamedExecContext";
              "NamedQueryContext"; "PrepareContext"; "PrepareNamedContext" ] /\ i = 1 \/
      sel ∈ [ "GetContext"; "SelectContext" ] /\ i = 2) /\
     (forall x args f,
        Visit (Some (qualifyingCall x sel args)) f = extractAt i args f) /\
     (forall x x' args args' f,
        args !! i = args' !! i ->
        Visit (Some (qualifyingCall x sel args)) f =
        Visit (Some (qualifyingCall x' sel args')) f)) /\
  (sel ∈ [ "GetContext"; "SelectContext" ] ->
   forall x a0 a1 a1' a2 rest f,
     Visit (Some (qualifyingCall x sel (a0 :: a1 :: a2 :: rest))) f =
     Visit (Some (qualifyingCall x sel (a0 :: a1' :: a2 :: rest))) f).
Proof.
  split; [apply signature_recognized|]. split.
  - intros i Hs. split; [by apply signature_cases|]. split.
    + intros x args f. by apply Visit_signature.
    + intros x x' args args' f E.
      rewrite !(Visit_signature _ _ _ _ _ Hs). unfold extractAt, bind, indexArgs.
      by rewrite E.
  - intros H x a0 a1 a1' a2 rest f.
    rewrite !Visit_at_two by exact H. reflexivity.
Qed.

(** C3. After the loop over the definitions, a name with exactly one
    constant definition is in the table with the exact text of that value
    and is not in the non-unique set, nor was it at any point of the
    loop; a name with two or more is in the non-unique set and the table
    still has the text met first.  An entry, once made, stays as it is
    whatever definitions follow, and a further constant definition of a
    recorded name puts the name in the non-unique set and leaves the whole
    table as it was. *)
Theorem constant_table_of_definitions (defs : list Binding) (name : string) :
  (forall v, constDefs name defs = [v] ->
     packageInfo (collectConstants defs) !! name = Some v /\
     (name ∉ nonUniqueNames (collectConstants defs)) /\
     (forall before after,
        defs = before ++ after -> name ∉ nonUniqueNames (collectConstants before))) /\
  (forall v w rest, constDefs name defs = v :: w :: rest ->
     name ∈ nonUniqueNames (collectConstants defs) /\
     packageInfo (collectConstants defs) !! name = Some v) /\
  (forall v more, packageInfo (collectConstants defs) !! name = Some v ->
     packageInfo (collectConstants (defs ++ more)) !! name = Some v) /\
  (forall e, is_Some (packageInfo (collectConstants defs) !! name) ->
     name ∈ nonUniqueNames (collectConstants (defs ++ [(name, Const e)])) /\
     packageInfo (collectConstants (defs ++ [(name, Const e)])) =
       packageInfo (collectConstants defs)).
Proof.
  unfold collectConstants. split; [|split; [|split]].
  - intros v H. split; [|split].
    + rewrite collectFrom_packageInfo, H. reflexivity.
    + rewrite collectFrom_nonUniqueNames, H. cbn. rewrite lookup_empty.
      intros [E|E]; [by apply not_elem_of_empty in E|lia].
    + intros before after ->. rewrite constDefs_app in H.
      apply (f_equal length) in H. rewrite length_app in H. cbn in H.
      rewrite collectFrom_nonUniqueNames. cbn. rewrite lookup_empty.
      intros [E|E]; [by apply not_elem_of_empty in E|lia].
  - intros v w rest H. split.
    + rewrite collectFrom_nonUniqueNames, H. cbn. rewrite lookup_empty. right. lia.
    + rewrite collectFrom_packageInfo, H. reflexivity.
  - intros v more E. rewrite collectFrom_app, collectFrom_packageInfo. by rewrite E.
  - intros e [v E]. rewrite collectFrom_app.
    change (collectFrom ?g [(name, Const e)]) with (defsStep g (name, Const e)).
    unfold defsStep. cbn [fst snd]. rewrite E. cbn. split; [|done].
    apply elem_of_union_l. by apply elem_of_singleton.
Qed.

(** C4. When the query argument of a recognized call is an identifier
    without a table entry, or an expression that is neither a literal nor
    an identifier, the visit returns with the finder as it was, its walk
    returns too, and the traversal goes on with the siblings.  The only
    resolution that does not return is that of a name of the non-unique
    set. *)
Theorem unresolvable_argument_is_skipped (f : queryFinder) (x : Node) (sel : string)
    (args : list Node) (i : nat) (a : Node) :
  methodSignatureTable !! sel = Some i ->
  args !! i = Some a ->
  ambiguousRecorded f ->
  unresolvable f a ->
  let call := qualifyingCall x sel args in
  Visit (Some call) f = Ok (false, f) /\
  Walk call f = Ok (tt, f) /\
  (forall siblings, walkList (call :: siblings) f = walkList siblings f) /\
  (forall (b : Node) g, processQuery b g <> Panic) /\
  (forall (b : Node) g msg,
     processQuery b g = Fatal msg ->
     exists name, b = Ident name /\ name ∈ nonUniqueNames g /\ msg = fatalMessage name).
Proof.
  intros Hs Ha Hf Hu call.
  assert (Hv : Visit (Some call) f = Ok (false, f)).
  { unfold call. rewrite (Visit_signature _ _ _ _ _ Hs).
    rewrite (extractAt_value _ _ _ _ _ Ha (processQuery_unresolvable _ _ Hf Hu)).
    reflexivity. }
  assert (Hw : Walk call f = Ok (tt, f)).
  { by rewrite (Walk_not_visited_further _ _ _ Hv). }
  repeat split; try done.
  - intros siblings. cbn [walkList]. unfold bind. by rewrite Hw.
  - intros b g. apply processQuery_never_panics.
  - intros b g msg. apply processQuery_fatal_only_ambiguous.
Qed.

Lemma Visit_value (x : Node) (sel : string) (args : list Node) (i : nat) (a : Node)
    (f : queryFinder) (q : string) :
  methodSignatureTable !! sel = Some i ->
  args !! i = Some a ->
  processQuery a f = Ok (q, f) ->
  q <> "" ->
  Visit (Some (qualifyingCall x sel args)) f = Ok (false, setQueries f (queries f ++ [q])).
Proof.
  intros Hs Ha Hp Hq. rewrite (Visit_signature _ _ _ _ _ Hs).
  rewrite (extractAt_value _ _ _ _ _ Ha Hp). by rewrite decide_False.
Qed.

Lemma processQuery_constant (name v : string) (f : queryFinder) :
  packageInfo f !! name = Some v -> name ∉ nonUniqueNames f ->
  processQuery (Ident name) f = Ok (v, f).
Proof.
  intros E H. cbn. unfold bind, get. rewrite decide_False by done.
  unfold mapIndex. by rewrite E.
Qed.

Lemma quoted_inj (s t : string) : quoted s = quoted t -> s = t.
Proof.
  unfold quoted. intros [= E]. revert t E.
  induction s as [|c s IH]; intros [|d t]; cbn; intros E.
  - done.
  - injection E as _ E. by destruct t.
  - injection E as _ E. by destruct s.
  - injection E as -> E. f_equal. by apply IH.
Qed.

Lemma collectConstants_unique (defs : list Binding) (name v : string) :
  constDefs name defs = [v] ->
  packageInfo (collectConstants defs) !! name = Some v /\
  name ∉ nonUniqueNames (collectConstants defs).
Proof.
  intros H. unfold collectConstants. split.
  - rewrite collectFrom_packageInfo, H. reflexivity.
  - rewrite collectFrom_nonUniqueNames, H. cbn. rewrite lookup_empty.
    intros [E|E]; [by apply not_elem_of_empty in E|lia].
Qed.

Lemma elem_of_constDefs (name e : string) (defs : list Binding) :
  (name, Const e) ∈ defs -> e ∈ constDefs name defs.
Proof.
  induction defs as [|[k [e'|]] defs IH]; intros H.
  - by apply elem_of_nil in H.
  - apply elem_of_cons in H as [[= <- <-]|H]; cbn.
    + rewrite decide_True by done. by left.
    + destruct (decide (k = name)); [right|]; by apply IH.
  - apply elem_of_cons in H as [[=]|H]; cbn. by apply IH.
Qed.

(** C5, as amended.  When the query argument of a recognized call is a
    literal token, of whatever kind, the visit appends the token's text as
    it is written (a token is not empty).  For the string literal of
    [SELECT 1] the value appended is the eight characters [SELECT 1]
    between double quotes, ten characters in all. *)
Theorem literal_argument_is_appended (f : queryFinder) (x : Node) (sel : string)
    (args : list Node) (i : nat) (k : Token) (v : string) :
  methodSignatureTable !! sel = Some i ->
  args !! i = Some (BasicLit k v) ->
  v <> "" ->
  Visit (Some (qualifyingCall x sel args)) f = Ok (false, setQueries f (queries f ++ [v])) /\
  (v = litText (Interpreted "SELECT 1") ->
   v = String dquote ("SELECT 1" +:+ String dquote "") /\
   String.length "SELECT 1" = 8 /\ String.length v = 10).
Proof.
  intros Hs Ha Hv. split.
  - by apply (Visit_value _ _ _ _ _ _ _ Hs Ha).
  - intros ->. by vm_compute.
Qed.

(** C6, as amended.  When the query argument of a recognized call is the
    name of a constant with one definition, the visit appends the text
    recorded for it, which is what it appends for a literal written with
    that text.  For a constant defined by an interpreted literal of plain
    body this is the defining literal itself; for one defined by a raw
    literal it is not: the literal is appended between back quotes. *)
Theorem constant_argument_is_appended (defs : list Binding) (qs : list string)
    (x : Node) (sel : string) (args : list Node) (i : nat) (name v : string) :
  methodSignatureTable !! sel = Some i ->
  args !! i = Some (Ident name) ->
  constDefs name defs = [v] ->
  v <> "" ->
  let f := setQueries (collectConstants defs) qs in
  Visit (Some (qualifyingCall x sel args)) f = Ok (false, setQueries f (qs ++ [v])) /\
  (forall k,
     Visit (Some (qualifyingCall x sel (<[i := BasicLit k v]> args))) f =
     Visit (Some (qualifyingCall x sel args)) f) /\
  (forall lit,
     constOfLit name lit ∈ defs ->
     plain (litBody lit) = true ->
     v = quoted (litBody lit) /\
     (forall body, lit = Interpreted body ->
        Visit (Some (qualifyingCall x sel (<[i := litNode lit]> args))) f =
        Visit (Some (qualifyingCall x sel args)) f) /\
     (forall body, lit = Raw body ->
        Visit (Some (qualifyingCall x sel (<[i := litNode lit]> args))) f =
        Ok (false, setQueries f (qs ++ [rawQuoted body])) /\
        rawQuoted body <> v)).
Proof.
  intros Hs Ha Hd Hv f.
  destruct (collectConstants_unique _ _ _ Hd) as [Ht Hn].
  assert (Hi : i < length args) by (by eapply lookup_lt_Some).
  assert (E : Visit (Some (qualifyingCall x sel args)) f
              = Ok (false, setQueries f (qs ++ [v]))).
  { rewrite (Visit_value x sel args i (Ident name) f v Hs Ha);
      [reflexivity|by apply processQuery_constant|done]. }
  assert (L : forall k,
             Visit (Some (qualifyingCall x sel (<[i := BasicLit k v]> args))) f
             = Visit (Some (qualifyingCall x sel args)) f).
  { intros k. rewrite E.
    rewrite (Visit_value x sel (<[i := BasicLit k v]> args) i (BasicLit k v) f v Hs);
      [reflexivity|by apply list_lookup_insert_eq|done..]. }
  split; [exact E|]. split; [exact L|].
  intros lit Hin _.
  assert (Hq : v = quoted (litBody lit)).
  { apply elem_of_constDefs in Hin. rewrite Hd in Hin.
    by apply list_elem_of_singleton in Hin. }
  split; [exact Hq|]. split.
  - intros body ->. cbn in Hq. specialize (L STRING). rewrite Hq in L. exact L.
  - intros body ->. split.
    + rewrite (Visit_value x sel (<[i := litNode (Raw body)]> args) i
                 (litNode (Raw body)) f (rawQuoted body) Hs);
        [reflexivity|by apply list_lookup_insert_eq|reflexivity|discriminate].
    + rewrite Hq. discriminate.
Qed.

(** ** Traversal control *)

Lemma methodImplements_values (sel v : string) :
  methodImplements !! sel = Some v -> v <> "".
Proof.
  intros E. apply elem_of_list_to_map_2 in E.
  repeat (apply elem_of_cons in E as [E|E]; [by inversion E|]).
  by apply elem_of_nil in E.
Qed.

Lemma recognized_lookup (sel : string) :
  recognized sel <-> is_Some (methodImplements !! sel).
Proof.
  unfold recognized, mapIndex. split.
  - destruct (methodImplements !! sel); [eauto|done].
  - intros [v E]. rewrite E. cbn. by eapply methodImplements_values.
Qed.

Lemma not_recognized_lookup (sel : string) :
  ~ recognized sel <-> methodImplements !! sel = None.
Proof.
  rewrite recognized_lookup. split.
  - intros H. destruct (methodImplements !! sel) eqn:E; [|done]. destruct H. eauto.
  - intros -> [v E]. discriminate.
Qed.

Lemma then_nil_visit (c : M unit) (f : queryFinder) :
  (c ;;; Visit None ;;; ret tt) f = c f.
Proof. unfold bind. by destruct (c f) as [[[] f1]| |]. Qed.

Lemma Walk_qualifying (node : Node) (f : queryFinder) :
  qualifying node ->
  Walk node f = mapOutcome (fun r => (tt, r.2)) (Visit (Some node) f).
Proof.
  intros Q. apply Walk_not_visited_further; [done|].
  intros f' E. destruct (Visit_qualifying _ Q) as (x & sel & args & i & _ & _ & Ev).
  rewrite Ev in E. by apply extractAt_effect in E as [? _].
Qed.

Lemma Walk_not_qualifying (node : Node) (f : queryFinder) :
  ~ qualifying node -> Walk node f = walkList (children node) f.
Proof.
  intros Q. rewrite Walk_unfold. unfold bind at 1.
  rewrite Visit_not_qualifying by done. apply then_nil_visit.
Qed.

(** C7. A call whose callee is a selector with a name of the table is not
    descended into: [Visit] never returns the finder for it, the walk of
    the node is its visit alone, and the siblings that follow and the
    parent's remaining children are walked from the finder the visit left.
    A node that is not a call, or whose callee is not a selector, or whose
    selector name is not in the table, leaves the finder as it was and has
    its children walked. *)
Theorem traversal_control (node : Node) (f : queryFinder) :
  ((exists x sel args,
      node = CallExpr (SelectorExpr x sel) args /\ is_Some (methodImplements !! sel)) ->
   (forall w f', Visit (Some node) f = Ok (w, f') -> w = false) /\
   Walk node f = mapOutcome (fun r => (tt, r.2)) (Visit (Some node) f) /\
   (forall siblings,
      walkList (node :: siblings) f = (Visit (Some node) ;;; walkList siblings) f) /\
   (forall before after f0,
      walkList before f0 = Ok (tt, f) ->
      Walk (OtherNode (before ++ node :: after)) f0 =
      (Visit (Some node) ;;; walkList after) f)) /\
  (((forall fn args, node <> CallExpr fn args) \/
    (exists fn args, node = CallExpr fn args /\ forall x sel, fn <> SelectorExpr x sel) \/
    (exists x sel args,
       node = CallExpr (SelectorExpr x sel) args /\ methodImplements !! sel = None)) ->
   Visit (Some node) f = Ok (true, f) /\
   Walk node f = walkList (children node) f).
Proof.
  split.
  - intros (x & sel & args & -> & Hr).
    assert (Q : qualifying (CallExpr (SelectorExpr x sel) args))
      by (by apply recognized_lookup).
    set (node := CallExpr (SelectorExpr x sel) args) in *.
    assert (Hw : forall g, Walk node g = (Visit (Some node) ;;; ret tt) g).
    { intros g. rewrite (Walk_qualifying _ _ Q). unfold bind.
      by destruct (Visit (Some node) g) as [[w g']| |]. }
    split; [|split; [|split]].
    + intros w f' E. destruct (Visit_qualifying _ Q) as (y & s & a & i & _ & _ & Ev).
      rewrite Ev in E. by apply extractAt_effect in E as [? _].
    + by apply Walk_qualifying.
    + intros siblings. cbn [walkList]. unfold bind at 1. rewrite Hw. unfold bind.
      by destruct (Visit (Some node) f) as [[w g']| |].
    + intros before after f0 Hb. rewrite Walk_not_qualifying by (cbn; tauto).
      cbn [children]. rewrite walkList_app. unfold bind at 1. rewrite Hb.
      cbn [walkList]. unfold bind at 1. rewrite Hw. unfold bind.
      by destruct (Visit (Some node) f) as [[w g']| |].
  - intros H.
    assert (Q : ~ qualifying node).
    { destruct H as [H|[(fn & args & -> & H)|(x & sel & args & -> & H)]].
      - destruct node as [k v|name|x sel|fn args|cs]; cbn; try tauto.
        by destruct (H fn args).
      - destruct fn as [k v|name|x sel|fn' args'|cs]; cbn; try tauto.
        by destruct (H x sel).
      - by apply not_recognized_lookup. }
    split; [by apply Visit_not_qualifying|by apply Walk_not_qualifying].
Qed.

(** C8. [processQuery] leaves the finder as it is.  A visit that returns
    leaves the table and the non-unique set as they were, and the query
    list either as it was or with exactly one element, not empty, added
    at its end.  So the whole traversal leaves the two tables as they
    were and the queries it started with at the front of the list. *)
Theorem visitor_frame :
  (forall a f f' q, processQuery a f = Ok (q, f') -> f' = f) /\
  (forall node f f' w,
     Visit node f = Ok (w, f') ->
     packageInfo f' = packageInfo f /\
     nonUniqueNames f' = nonUniqueNames f /\
     (queries f' = queries f \/ exists q, q <> "" /\ queries f' = queries f ++ [q])) /\
  (forall files f f' u,
     walkFiles files f = Ok (u, f') ->
     packageInfo f' = packageInfo f /\
     nonUniqueNames f' = nonUniqueNames f /\
     exists new, queries f' = queries f ++ new).
Proof.
  split; [apply processQuery_reads|]. split.
  - intros node f f' w E. apply Visit_effect in E as [->|(q & Hq & ->)].
    + repeat split; by left.
    + repeat split. right. eauto.
  - intros files f f' u E. apply walkList_extends in E as [new ->].
    repeat split. by exists new.
Qed.

(** C9. Two traversals of the same files in the same order, by finders
    with the same table and the same non-unique set, end alike: both
    return, and with the same queries found in the same order after what
    each finder held before, or both stop with the same message, or both
    panic.  Finders that also start with the same queries end equal. *)
Theorem traversal_is_deterministic (files : list Node) (f1 f2 : queryFinder) :
  packageInfo f1 = packageInfo f2 ->
  nonUniqueNames f1 = nonUniqueNames f2 ->
  agree f1 f2 (walkFiles files f1) (walkFiles files f2).
Proof.
  intros Ht Hn.
  assert (E0 : setQueries f1 [] = setQueries f2 []).
  { unfold setQueries. by rewrite Ht, Hn. }
  assert (W : forall g,
             walkList files g =
             mapOutcome (onState (prefixed (queries g))) (walkList files (setQueries g []))).
  { intros g. rewrite <- walkList_prefixed. by rewrite <- prefixed_own_queries. }
  unfold agree, walkFiles. rewrite (W f1), (W f2), E0.
  destruct (walkList files (setQueries f2 [])) as [[[] g]| |]; cbn; try done.
  exists (queries g). repeat split. by intros ->.
Qed.

(** C10. The visit of a recognized call panics exactly when the call has
    fewer than two arguments, fewer than three for [GetContext] and
    [SelectContext], whatever the finder and the arguments are: no test
    of the length stands before the index expression. *)
Theorem argument_bounds (x : Node) (sel : string) (args : list Node) (f : queryFinder) :
  (sel ∈ [ "ExecContext"; "QueryContext"; "QueryRowContext"; "NamedExecContext";
           "NamedQueryContext"; "PrepareContext"; "PrepareNamedContext" ] ->
   (2 <= length args -> Visit (Some (qualifyingCall x sel args)) f <> Panic) /\
   (length args < 2 -> Visit (Some (qualifyingCall x sel args)) f = Panic)) /\
  (sel ∈ [ "GetContext"; "SelectContext" ] ->
   (3 <= length args -> Visit (Some (qualifyingCall x sel args)) f <> Panic) /\
   (length args < 3 -> Visit (Some (qualifyingCall x sel args)) f = Panic)).
Proof.
  assert (B : forall i,
             (i < length args -> extractAt i args f <> Panic) /\
             (length args <= i -> extractAt i args f = Panic)).
  { intros i. unfold extractAt, bind, indexArgs. split.
    - intros H. destruct (lookup_lt_is_Some_2 args i H) as [a ->]. cbn [ret].
      pose proof (processQuery_never_panics a f) as Hp.
      destruct (processQuery a f) as [[q f1]| |]; [|done..].
      by destruct (decide (q = "")).
    - intros H. by rewrite (lookup_ge_None_2 args i H). }
  split; intros H.
  - rewrite Visit_at_one by exact H. destruct (B 1) as [B1 B2].
    split; intros L; [apply B1|apply B2]; lia.
  - rewrite Visit_at_two by exact H. destruct (B 2) as [B1 B2].
    split; intros L; [apply B1|apply B2]; lia.
Qed.

(** ** The properties on sample packages *)

Lemma reachesInFiles_only_child (call : Node) (f : queryFinder) :
  ~ qualifying (OtherNode [call]) -> reachesInFiles [OtherNode [call]] f call f.
Proof.
  intros Q. exists [], (OtherNode [call]), [], f. repeat split.
  apply (reaches_child (OtherNode [call]) f f f [] call [] call f);
    [by apply Visit_not_qualifying|reflexivity|reflexivity|constructor].
Qed.

Lemma ambiguous_constant_is_fatal_witness :
  let call := qualifyingCall db "QueryContext" [ctx; Ident "Q"] in
  Visit (Some call) (collectConstants twiceQ)
  = Fatal "constant already defined, need unique name for Q" /\
  run twiceQ [OtherNode [call]]
  = Fatal "constant already defined, need unique name for Q".
Proof.
  intros call.
  destruct (ambiguous_constant_is_fatal (collectConstants twiceQ) db "QueryContext"
              [ctx; Ident "Q"] 1 "Q") as (_ & Hv & _ & _ & _ & Hr).
  - vm_compute. reflexivity.
  - reflexivity.
  - decide_closed.
  - split; [exact Hv|]. apply (Hr twiceQ _ (collectConstants twiceQ)).
    + vm_compute. lia.
    + apply reachesInFiles_only_child. cbn. tauto.
Defined.

Lemma query_argument_position_witness :
  methodSignatureTable !! "GetContext" = Some 2 /\
  Visit (Some (qualifyingCall db "GetContext" [ctx; Ident "Q"; BasicLit STRING selectOne]))
    (collectConstants twiceQ)
  = Visit (Some (qualifyingCall db "GetContext" [ctx; Ident "dest"; BasicLit STRING selectOne]))
      (collectConstants twiceQ).
Proof.
  split; [vm_compute; reflexivity|].
  apply (proj2 (proj2 (query_argument_position "GetContext"))).
  decide_closed.
Defined.

Lemma constant_table_of_definitions_witness :
  (packageInfo (collectConstants twiceQ) !! "R" = Some (quoted "SELECT 2") /\
   "R" ∉ nonUniqueNames (collectConstants twiceQ)) /\
  ("Q" ∈ nonUniqueNames (collectConstants twiceQ) /\
   packageInfo (collectConstants twiceQ) !! "Q" = Some selectOne).
Proof.
  split.
  - destruct (proj1 (constant_table_of_definitions twiceQ "R") (quoted "SELECT 2"))
      as (Ht & Hn & _); [reflexivity|].
    split; [exact Ht|exact Hn].
  - apply (proj1 (proj2 (constant_table_of_definitions twiceQ "Q"))
             selectOne (quoted "SELECT 3") []).
    reflexivity.
Defined.

Lemma unresolvable_argument_is_skipped_witness :
  let call := qualifyingCall db "QueryContext" [ctx; Ident "q"] in
  Visit (Some call) (collectConstants twiceQ) = Ok (false, collectConstants twiceQ) /\
  Walk call (collectConstants twiceQ) = Ok (tt, collectConstants twiceQ).
Proof.
  intros call.
  destruct (unresolvable_argument_is_skipped (collectConstants twiceQ) db "QueryContext"
              [ctx; Ident "q"] 1 (Ident "q")) as (Hv & Hw & _).
  - vm_compute. reflexivity.
  - reflexivity.
  - apply collectConstants_ambiguousRecorded.
  - vm_compute. reflexivity.
  - split; [exact Hv|exact Hw].
Defined.

Lemma literal_argument_is_appended_witness :
  Visit (Some (qualifyingCall db "ExecContext" [ctx; BasicLit STRING selectOne])) newFinder
  = Ok (false, setQueries newFinder [selectOne]) /\
  String.length selectOne = 10.
Proof.
  destruct (literal_argument_is_appended newFinder db "ExecContext"
              [ctx; BasicLit STRING selectOne] 1 STRING selectOne) as [Hv Hl].
  - vm_compute. reflexivity.
  - reflexivity.
  - intros E. vm_compute in E. discriminate E.
  - split; [exact Hv|]. by apply Hl.
Defined.

(** C5, as stated, fails on its own example: what the visit appends for
    the string literal of [SELECT 1] is not five characters between double
    quotes. *)
Lemma select_one_literal_is_not_five_characters :
  exists f',
    Visit (Some (qualifyingCall db "ExecContext"
             [ctx; BasicLit STRING (litText (Interpreted "SELECT 1"))])) newFinder
    = Ok (false, f') /\
    ~ (exists s, String.length s = 5 /\ queries f' = [quoted s]).
Proof.
  exists (setQueries newFinder [quoted "SELECT 1"]).
  split; [vm_compute; reflexivity|].
  intros (s & Hs & E). change ([quoted "SELECT 1"] = [quoted s]) in E.
  pose proof (f_equal (fun l => default "" (head l)) E) as Eq.
  change (quoted "SELECT 1" = quoted s) in Eq.
  apply quoted_inj in Eq as <-. discriminate Hs.
Qed.

Lemma constant_argument_is_appended_witness :
  let defs := [constOfLit "Q" (Interpreted "SELECT 1")] in
  Visit (Some (qualifyingCall db "ExecContext" [ctx; Ident "Q"])) (collectConstants defs)
  = Ok (false, setQueries (collectConstants defs) [quoted "SELECT 1"]) /\
  Visit (Some (qualifyingCall db "ExecContext" [ctx; litNode (Interpreted "SELECT 1")]))
    (collectConstants defs)
  = Visit (Some (qualifyingCall db "ExecContext" [ctx; Ident "Q"])) (collectConstants defs).
Proof.
  intros defs.
  destruct (constant_argument_is_appended defs [] db "ExecContext" [ctx; Ident "Q"] 1
              "Q" (quoted "SELECT 1")) as (Hv & _ & Hl).
  - vm_compute. reflexivity.
  - reflexivity.
  - reflexivity.
  - intros E. vm_compute in E. discriminate E.
  - split; [exact Hv|].
    destruct (Hl (Interpreted "SELECT 1")) as (_ & Hi & _).
    + apply list_elem_of_singleton. reflexivity.
    + reflexivity.
    + exact (Hi "SELECT 1" eq_refl).
Defined.

(** C6, as stated, fails for [const Q = `SELECT 1`]: the constant is
    recorded, and appended, between double quotes, and its defining
    literal written at the call is appended between back quotes. *)
Lemma raw_constant_differs_from_its_literal :
  let lit := Raw "SELECT 1" in
  let defs := [constOfLit "Q" lit] in
  exists f1 f2,
    plain (litBody lit) = true /\
    constDefs "Q" defs = [quoted "SELECT 1"] /\
    Visit (Some (qualifyingCall db "QueryContext" [ctx; Ident "Q"])) (collectConstants defs)
    = Ok (false, f1) /\
    Visit (Some (qualifyingCall db "QueryContext" [ctx; litNode lit])) (collectConstants defs)
    = Ok (false, f2) /\
    queries f1 = [quoted "SELECT 1"] /\
    queries f2 = [rawQuoted "SELECT 1"] /\
    queries f1 <> queries f2.
Proof.
  intros lit defs. eexists _, _.
  split; [reflexivity|]. split; [reflexivity|].
  split; [vm_compute; reflexivity|]. split; [vm_compute; reflexivity|].
  split; [reflexivity|]. split; [reflexivity|].
  intros E. vm_compute in E. discriminate E.
Qed.

Lemma traversal_control_witness :
  let inner := qualifyingCall db "QueryRowContext" [ctx; BasicLit STRING selectOne] in
  let outer := qualifyingCall db "ExecContext" [ctx; inner] in
  Walk outer newFinder = Ok (tt, newFinder) /\
  Walk (OtherNode [inner]) newFinder = walkList [inner] newFinder.
Proof.
  intros inner outer. split.
  - destruct (proj1 (traversal_control outer newFinder)) as (_ & Hw & _).
    + exists db, "ExecContext", [ctx; inner]. split; [reflexivity|].
      exists "ExecContext". vm_compute. reflexivity.
    + rewrite Hw. vm_compute. reflexivity.
  - apply (proj2 (traversal_control (OtherNode [inner]) newFinder)).
    left. intros fn args E. discriminate E.
Defined.

Lemma visitor_frame_witness :
  let f := collectConstants twiceQ in
  let f' := setQueries f [quoted "SELECT 2"] in
  packageInfo f' = packageInfo f /\
  nonUniqueNames f' = nonUniqueNames f /\
  (queries f' = queries f \/ exists q, q <> "" /\ queries f' = queries f ++ [q]).
Proof.
  intros f f'.
  apply (proj1 (proj2 visitor_frame)
           (Some (qualifyingCall db "QueryContext" [ctx; Ident "R"])) f f' false).
  vm_compute. reflexivity.
Defined.

Lemma traversal_is_deterministic_witness :
  let files :=
    [ OtherNode [qualifyingCall db "QueryContext" [ctx; Ident "R"]];
      OtherNode [qualifyingCall db "SelectContext" [ctx; Ident "dest"; BasicLit STRING selectOne]] ] in
  let f1 := setQueries (collectConstants twiceQ) ["a"] in
  let f2 := setQueries (collectConstants twiceQ) ["b"; "c"] in
  agree f1 f2 (walkFiles files f1) (walkFiles files f2).
Proof.
  intros files f1 f2.
  apply (traversal_is_deterministic files f1 f2); reflexivity.
Defined.

Lemma argument_bounds_witness :
  Visit (Some (qualifyingCall db "SelectContext" [ctx; Ident "dest"])) newFinder = Panic /\
  Visit (Some (qualifyingCall db "ExecContext" [ctx; BasicLit STRING selectOne])) newFinder
  <> Panic.
Proof.
  split.
  - apply (proj2 (argument_bounds db "SelectContext" [ctx; Ident "dest"] newFinder)).
    + decide_closed.
    + cbn. lia.
  - apply (proj1 (argument_bounds db "ExecContext" [ctx; BasicLit STRING selectOne]
                    newFinder)).
    + decide_closed.
    + cbn. lia.
Defined.

(** The order of the files shows in the order of the queries. *)
Example file_order_matters :
  let a := OtherNode [qualifyingCall db "ExecContext" [ctx; BasicLit STRING selectOne]] in
  let b := OtherNode [qualifyingCall db "ExecContext" [ctx; BasicLit STRING (quoted "SELECT 2")]] in
  run [] [a; b] = Ok [selectOne; quoted "SELECT 2"] /\
  run [] [b; a] = Ok [quoted "SELECT 2"; selectOne].
Proof. split; vm_compute; reflexivity. Qed.

(** With the destination at index 1 an ambiguous name, the visit of
    [GetContext] still resolves index 2 alone. *)
Example destination_is_not_resolved :
  run twiceQ [qualifyingCall db "GetContext" [ctx; Ident "Q"; Ident "R"]]
  = Ok [quoted "SELECT 2"].
Proof. vm_compute. reflexivity. Qed.

(** * Further properties *)

(** ** The order of strings *)

Lemma ascii_compare_lt (a b : Ascii.ascii) :
  Ascii.compare a b = Lt <-> (Ascii.N_of_ascii a < Ascii.N_of_ascii b)%N.
Proof. unfold Ascii.compare. apply N.compare_lt_iff. Qed.

Lemma ascii_compare_eq (a b : Ascii.ascii) : Ascii.compare a b = Eq <-> a = b.
Proof.
  split; [apply Ascii.compare_eq_iff|].
  intros ->. unfold Ascii.compare. apply N.compare_refl.
Qed.

Lemma ascii_compare_gt (a b : Ascii.ascii) :
  Ascii.compare a b = Gt <-> (Ascii.N_of_ascii b < Ascii.N_of_ascii a)%N.
Proof. unfold Ascii.compare. apply N.compare_gt_iff. Qed.

Lemma stringLe_cons (a b : Ascii.ascii) (s t : string) :
  stringLe (String a s) (String b t) <->
  (Ascii.N_of_ascii a < Ascii.N_of_ascii b)%N \/ a = b /\ stringLe s t.
Proof.
  unfold stringLe, String.leb. cbn [String.compare].
  destruct (Ascii.compare a b) eqn:E.
  - apply ascii_compare_eq in E as ->. split; [by right|].
    intros [H|[_ H]]; [lia|done].
  - apply ascii_compare_lt in E. split; [by left|done].
  - apply ascii_compare_gt in E. split; [done|].
    intros [H|[-> _]]; lia.
Qed.

Lemma stringLe_refl (s : string) : stringLe s s.
Proof. induction s as [|a s IH]; [done|]. apply stringLe_cons. by right. Qed.

Lemma stringLe_trans (s t u : string) : stringLe s t -> stringLe t u -> stringLe s u.
Proof.
  revert t u. induction s as [|a s IH]; intros [|b t] [|c u]; try done.
  rewrite !stringLe_cons. intros [H1|[-> H1]] [H2|[-> H2]].
  - left. lia.
  - by left.
  - by left.
  - right. split; [done|]. by eapply IH.
Qed.

#[local] Instance stringLe_transitive : Transitive stringLe.
Proof. intros s t u. apply stringLe_trans. Qed.

#[local] Instance stringLe_total : Total stringLe.
Proof. intros s t. apply String.leb_total. Qed.

#[local] Instance stringLe_antisymm : AntiSymm (=) stringLe.
Proof. intros s t. apply String.leb_antisym. Qed.

Lemma sortStrings_sorted (l : list string) : StronglySorted stringLe (sortStrings l).
Proof. apply StronglySorted_merge_sort; apply _. Qed.

Lemma sortStrings_perm (l : list string) : sortStrings l ≡ₚ l.
Proof. apply merge_sort_Permutation. Qed.

Lemma sortStrings_unique (l l' : list string) :
  StronglySorted stringLe l' -> l' ≡ₚ l -> l' = sortStrings l.
Proof.
  intros Hs Hp. apply (StronglySorted_unique stringLe); [done|apply sortStrings_sorted|].
  by rewrite sortStrings_perm.
Qed.

(** ** uniqueStrings *)

Lemma keySet_from (strs : list string) (m : gset string) (s : string) :
  s ∈ fold_left (fun m s => {[ s ]} ∪ m) strs m <-> s ∈ m \/ s ∈ strs.
Proof.
  revert m. induction strs as [|t strs IH]; intros m; cbn.
  - split; [by left|]. intros [H|H]; [done|by apply elem_of_nil in H].
  - rewrite IH, elem_of_union, elem_of_singleton, elem_of_cons. tauto.
Qed.

Lemma elem_of_keySet (strs : list string) (s : string) : s ∈ keySet strs <-> s ∈ strs.
Proof.
  unfold keySet. rewrite keySet_from. split; [|by right].
  intros [H|H]; [by apply not_elem_of_empty in H|done].
Qed.

Lemma rangeOf_elements : rangeOf elements.
Proof. by intros m. Qed.

Lemma rangeOf_reverse : rangeOf (fun m => reverse (elements m)).
Proof. intros m. apply reverse_Permutation. Qed.

Lemma uniqueStringsIn_perm (rangeOrder : gset string -> list string) (strs : list string) :
  rangeOf rangeOrder -> uniqueStringsIn rangeOrder strs ≡ₚ elements (keySet strs).
Proof. intros H. unfold uniqueStringsIn. by rewrite sortStrings_perm. Qed.

Lemma elem_of_uniqueStringsIn (rangeOrder : gset string -> list string)
    (strs : list string) (s : string) :
  rangeOf rangeOrder -> s ∈ uniqueStringsIn rangeOrder strs <-> s ∈ strs.
Proof.
  intros H. by rewrite (uniqueStringsIn_perm _ _ H), elem_of_elements, elem_of_keySet.
Qed.

Lemma StronglySorted_lookup (l : list string) (i j : nat) (s t : string) :
  StronglySorted stringLe l -> i < j -> l !! i = Some s -> l !! j = Some t ->
  stringLe s t.
Proof.
  intros Hs. revert i j. induction Hs as [|a l _ IH Ha]; intros i j Hij Hi Hj.
  - by rewrite lookup_nil in Hi.
  - destruct j as [|j]; [lia|]. destruct i as [|i].
    + injection Hi as <-. cbn in Hj. rewrite Forall_forall in Ha.
      apply Ha. by eapply list_elem_of_lookup_2.
    + apply (IH i j); [lia|done..].
Qed.

(** X1. Whatever order the map is ranged over in, the result of
    [uniqueStrings] has exactly the strings of its argument, each once, in
    strictly increasing byte order. *)
Theorem uniqueStrings_sorted_members (rangeOrder : gset string -> list string)
    (strs : list string) :
  rangeOf rangeOrder ->
  let unique := uniqueStringsIn rangeOrder strs in
  (forall s, s ∈ unique <-> s ∈ strs) /\
  NoDup unique /\
  (forall i j s t, i < j -> unique !! i = Some s -> unique !! j = Some t ->
     stringLe s t /\ s <> t).
Proof.
  intros H unique.
  assert (Hp : unique ≡ₚ elements (keySet strs)) by (by apply uniqueStringsIn_perm).
  assert (Hn : NoDup unique) by (rewrite Hp; apply NoDup_elements).
  split; [|split; [done|]].
  - intros s. by apply elem_of_uniqueStringsIn.
  - intros i j s t Hij Hi Hj. split.
    + apply (StronglySorted_lookup unique i j); [apply sortStrings_sorted|done..].
    + intros <-. pose proof (NoDup_lookup _ _ _ _ Hn Hi Hj). lia.
Qed.

(** X2. The result of [uniqueStrings] is decided by the set of strings of
    its argument: arguments with the same strings, in whatever order and
    however often, give the same list, the range order of the map does not
    show, a second application changes nothing, and a strictly increasing
    list comes back as it is. *)
Theorem uniqueStrings_canonical (order1 order2 : gset string -> list string)
    (strs1 strs2 : list string) :
  rangeOf order1 -> rangeOf order2 ->
  (forall s, s ∈ strs1 <-> s ∈ strs2) ->
  uniqueStringsIn order1 strs1 = uniqueStringsIn order2 strs2 /\
  uniqueStringsIn order2 (uniqueStringsIn order1 strs1) = uniqueStringsIn order1 strs1 /\
  (StronglySorted stringLe strs1 -> NoDup strs1 -> uniqueStringsIn order1 strs1 = strs1).
Proof.
  intros H1 H2 Hs.
  assert (Hk : forall a b, (forall s, s ∈ a <-> s ∈ b) -> keySet a = keySet b).
  { intros a b Hab. apply set_eq. intros s. by rewrite !elem_of_keySet. }
  assert (Hc : forall o o' a b, rangeOf o -> rangeOf o' ->
                 (forall s, s ∈ a <-> s ∈ b) -> uniqueStringsIn o a = uniqueStringsIn o' b).
  { intros o o' a b Ho Ho' Hab. unfold uniqueStringsIn. rewrite (Hk _ _ Hab).
    apply sortStrings_unique; [apply sortStrings_sorted|].
    by rewrite sortStrings_perm, (Ho _), (Ho' _). }
  split; [by apply Hc|]. split.
  - rewrite <- (Hc order1 order2 strs1 (uniqueStringsIn order1 strs1)); [done..|].
    intros s. symmetry. by apply elem_of_uniqueStringsIn.
  - intros Hsorted Hnodup. symmetry. apply sortStrings_unique; [done|].
    rewrite (H1 _). apply NoDup_Permutation; [done|apply NoDup_elements|].
    intros s. by rewrite elem_of_elements, elem_of_keySet.
Qed.

Example uniqueStrings_sample :
  uniqueStrings ["b"; "a"; "B"; "b"; "ab"; "a"] = ["B"; "a"; "ab"; "b"].
Proof. vm_compute. reflexivity. Qed.

(** X3. [uniqueStrings] returns as many strings as its argument has
    different ones: never more than the argument holds, as many exactly
    when the argument has no string twice, and none exactly when the
    argument is empty. *)
Theorem uniqueStrings_length (rangeOrder : gset string -> list string)
    (strs : list string) :
  rangeOf rangeOrder ->
  let unique := uniqueStringsIn rangeOrder strs in
  length unique = size (keySet strs) /\
  length unique <= length strs /\
  (length unique = length strs <-> NoDup strs) /\
  (unique = [] <-> strs = []).
Proof.
  intros H unique.
  assert (Hp : unique ≡ₚ elements (keySet strs)) by (by apply uniqueStringsIn_perm).
  assert (Hn : NoDup unique) by (rewrite Hp; apply NoDup_elements).
  assert (Hm : forall s, s ∈ unique <-> s ∈ strs)
    by (intros s; by apply elem_of_uniqueStringsIn).
  assert (Hsub : unique ⊆+ strs).
  { apply NoDup_submseteq; [done|]. intros s. by rewrite Hm. }
  split; [by rewrite Hp|]. split; [by apply submseteq_length|]. split.
  - split.
    + intros E. rewrite <- (submseteq_length_Permutation _ _ Hsub); [done|lia].
    + intros Hd. apply Permutation_length. apply NoDup_Permutation; done.
  - split.
    + intros E. destruct strs as [|s strs]; [done|].
      assert (Hs : s ∈ unique) by (apply Hm; by left).
      rewrite E in Hs. by apply elem_of_nil in Hs.
    + intros ->. apply Permutation_nil_r. by rewrite Hp.
Qed.

(** ** generateCode *)

Lemma string_app_assoc (a b c : string) : (a +:+ b) +:+ c = a +:+ (b +:+ c).
Proof.
  induction a as [|x a IH]; [reflexivity|].
  change (String x ((a +:+ b) +:+ c) = String x (a +:+ (b +:+ c))). by rewrite IH.
Qed.

Lemma concatStrings_app (l1 l2 : list string) :
  concatStrings (l1 ++ l2) = concatStrings l1 +:+ concatStrings l2.
Proof.
  induction l1 as [|s l1 IH]; [done|]. cbn [app concatStrings].
  by rewrite IH, string_app_assoc.
Qed.

Lemma joined_lines (q : string) (qs : list string) (rest : string) :
  newline +:+ tab +:+ tab +:+
    String.concat ("," +:+ newline +:+ tab +:+ tab) (q :: qs) +:+ "," +:+ rest
  = concatStrings (map codeLine (q :: qs)) +:+ rest.
Proof.
  revert q. induction qs as [|q' qs IH]; intros q.
  - cbn [String.concat map concatStrings]. unfold codeLine.
    rewrite !string_app_assoc. reflexivity.
  - transitivity (codeLine q +:+ (concatStrings (map codeLine (q' :: qs)) +:+ rest)).
    + rewrite <- (IH q').
      change (String.concat ?sep (q :: q' :: qs))
        with (q +:+ sep +:+ String.concat sep (q' :: qs)).
      unfold codeLine. rewrite !string_app_assoc. reflexivity.
    + cbn [map concatStrings]. by rewrite !string_app_assoc.
Qed.

Lemma codeLine_then_newline (qs : list string) (rest : string) :
  exists after,
    concatStrings (map codeLine qs) +:+ newline +:+ rest = newline +:+ after.
Proof.
  destruct qs as [|q qs]; [by exists rest|].
  cbn [map concatStrings]. unfold codeLine at 1.
  rewrite !string_app_assoc. eauto.
Qed.

Lemma generateCode_nil (packageName importPath : string) :
  generateCode packageName importPath [] =
  codeHeader packageName importPath +:+ "}" +:+ newline +:+ "}".
Proof.
  unfold generateCode, codeHeader. cbn [length].
  rewrite decide_True by done. rewrite !string_app_assoc. reflexivity.
Qed.

Lemma generateCode_not_nil (packageName importPath : string) (queries : list string) :
  queries <> [] ->
  generateCode packageName importPath queries =
  codeHeader packageName importPath +:+ concatStrings (map codeLine queries) +:+
  newline +:+ tab +:+ "}" +:+ newline +:+ "}".
Proof.
  intros Hq. destruct queries as [|q qs]; [done|].
  unfold generateCode. rewrite decide_False by (cbn; lia).
  unfold codeHeader. rewrite !string_app_assoc.
  do 12 (apply (f_equal (String.append _))). apply joined_lines.
Qed.

Lemma generateCode_has_line (packageName importPath : string) (queries : list string)
    (q : string) :
  q ∈ queries ->
  exists before after,
    generateCode packageName importPath queries =
    before +:+ codeLine q +:+ newline +:+ after.
Proof.
  intros Hq. rewrite generateCode_not_nil by (intros ->; by apply elem_of_nil in Hq).
  apply list_elem_of_split in Hq as (l1 & l2 & ->).
  rewrite map_app, concatStrings_app. cbn [map concatStrings].
  destruct (codeLine_then_newline l2 (tab +:+ "}" +:+ newline +:+ "}")) as [after E].
  exists (codeHeader packageName importPath +:+ concatStrings (map codeLine l1)), after.
  rewrite ?string_app_assoc. do 2 (apply (f_equal (String.append _))).
  rewrite <- E. unfold codeLine. rewrite ?string_app_assoc. reflexivity.
Qed.

(** X4. The code generated for a list of queries that is not empty is the
    header, then one line for each query in the order of the list, made of
    a newline, two tabs, the query as it is and a comma, then the closing
    lines; every query of the list stands on such a line followed by a
    newline.  For the empty list the braces close at once on the header's
    line. *)
Theorem generateCode_lines (packageName importPath : string) (queries : list string) :
  (queries = [] ->
   generateCode packageName importPath queries =
   codeHeader packageName importPath +:+ "}" +:+ newline +:+ "}") /\
  (queries <> [] ->
   generateCode packageName importPath queries =
   codeHeader packageName importPath +:+ concatStrings (map codeLine queries) +:+
   newline +:+ tab +:+ "}" +:+ newline +:+ "}") /\
  (forall q, q ∈ queries ->
   exists before after,
     generateCode packageName importPath queries =
     before +:+ codeLine q +:+ newline +:+ after).
Proof.
  split; [|split].
  - intros ->. apply generateCode_nil.
  - apply generateCode_not_nil.
  - intros q. apply generateCode_has_line.
Qed.

(** ** The traversal as a writer of queries *)

Lemma foundBy_setQueries (f : queryFinder) (qs : list string) (l : list Node) :
  foundBy (setQueries f qs) l = foundBy f l.
Proof. reflexivity. Qed.

Lemma walkList_found (l : list Node) (f : queryFinder) :
  walkList l f =
  mapOutcome (fun qs => (tt, setQueries f (queries f ++ qs))) (foundBy f l).
Proof.
  transitivity (mapOutcome (onState (prefixed (queries f))) (walkList l (setQueries f []))).
  - rewrite <- walkList_prefixed. by rewrite <- prefixed_own_queries.
  - unfold foundBy.
    destruct (walkList l (setQueries f [])) as [[[] g]| |] eqn:E; try reflexivity.
    apply walkList_extends in E as [new ->]. reflexivity.
Qed.

Lemma foundBy_app (f : queryFinder) (l1 l2 : list Node) :
  foundBy f (l1 ++ l2) =
  match foundBy f l1 with
  | Ok q1 => mapOutcome (app q1) (foundBy f l2)
  | Fatal msg => Fatal msg
  | Panic => Panic
  end.
Proof.
  unfold foundBy at 1. rewrite walkList_app. unfold bind.
  rewrite (walkList_found l1).
  change (foundBy (setQueries f []) l1) with (foundBy f l1).
  destruct (foundBy f l1) as [q1| |]; cbn [mapOutcome]; try reflexivity.
  rewrite walkList_found.
  change (foundBy (setQueries (setQueries f []) (queries (setQueries f []) ++ q1)) l2)
    with (foundBy f l2).
  by destruct (foundBy f l2).
Qed.

Lemma foundBy_nil (f : queryFinder) : foundBy f [] = Ok [].
Proof. reflexivity. Qed.

Lemma foundBy_cons (f : queryFinder) (x : Node) (l : list Node) :
  foundBy f (x :: l) =
  match foundBy f [x] with
  | Ok q1 => mapOutcome (app q1) (foundBy f l)
  | Fatal msg => Fatal msg
  | Panic => Panic
  end.
Proof. apply (foundBy_app f [x] l). Qed.

Lemma foundBy_Permutation (f : queryFinder) (l l' : list Node) (qs : list string) :
  l ≡ₚ l' -> foundBy f l = Ok qs ->
  exists qs', foundBy f l' = Ok qs' /\ qs ≡ₚ qs'.
Proof.
  intros Hp. revert qs.
  induction Hp as [|x l l' _ IH|x y l|l l' l'' _ IH1 _ IH2]; intros qs.
  - eauto.
  - rewrite (foundBy_cons f x l), (foundBy_cons f x l').
    destruct (foundBy f [x]) as [qx| |]; try discriminate.
    destruct (foundBy f l) as [ql| |]; try discriminate.
    destruct (IH ql eq_refl) as (ql' & -> & Hq). cbn. intros [= <-].
    exists (qx ++ ql'). split; [done|]. by rewrite Hq.
  - rewrite (foundBy_cons f y), (foundBy_cons f x l).
    rewrite (foundBy_cons f x (y :: l)), (foundBy_cons f y l).
    destruct (foundBy f [y]) as [qy| |]; try discriminate;
      destruct (foundBy f [x]) as [qx| |]; try discriminate.
    destruct (foundBy f l) as [ql| |]; try discriminate. cbn. intros [= <-].
    exists (qx ++ qy ++ ql). split; [done|].
    rewrite !app_assoc. by rewrite (Permutation_app_comm qy qx).
  - intros E. destruct (IH1 _ E) as (q1 & E1 & H1).
    destruct (IH2 _ E1) as (q2 & E2 & H2). exists q2. split; [done|]. by rewrite H1.
Qed.

Lemma collectFrom_queries (defs : list Binding) (f : queryFinder) :
  queries (collectFrom f defs) = queries f.
Proof.
  revert f. induction defs as [|[k [e|]] defs IH]; intros f; [done| |].
  - rewrite collectFrom_cons, IH. unfold defsStep. cbn.
    by destruct (packageInfo f !! k).
  - by rewrite collectFrom_cons, IH.
Qed.

Lemma run_found (defs : list Binding) (files : list Node) :
  run defs files = foundBy (collectConstants defs) files.
Proof.
  unfold run, walkFiles. rewrite walkList_found.
  unfold collectConstants at 2. rewrite collectFrom_queries.
  by destruct (foundBy (collectConstants defs) files).
Qed.

(** X5. When the traversal of the files in one order returns, so does the
    traversal in every other order, with the same queries up to their
    order; the code that [main] generates is then one and the same,
    whatever order the files are ranged over in. *)
Theorem file_order_does_not_show (defs : list Binding) (packageName importPath : string)
    (files files' : list Node) (qs : list string) :
  files ≡ₚ files' ->
  run defs files = Ok qs ->
  exists qs',
    run defs files' = Ok qs' /\ qs ≡ₚ qs' /\
    uniqueStrings qs' = uniqueStrings qs /\
    generated defs packageName importPath files'
    = generated defs packageName importPath files.
Proof.
  intros Hp E. rewrite run_found in E.
  destruct (foundBy_Permutation _ _ _ _ Hp E) as (qs' & E' & Hq).
  rewrite <- run_found in E, E'.
  assert (Hu : uniqueStrings qs' = uniqueStrings qs).
  { assert (Hk : keySet qs' = keySet qs).
    { apply set_eq. intros s. by rewrite !elem_of_keySet, Hq. }
    unfold uniqueStrings, uniqueStringsIn. by rewrite Hk. }
  exists qs'. split; [done|]. split; [done|]. split; [done|].
  unfold generated. rewrite E, E'. cbn. by rewrite Hu.
Qed.

(** ** Finders that resolve alike traverse alike *)

Section Simulation.
Variable R : queryFinder -> queryFinder -> Prop.
Hypothesis R_resolve : forall f f' a,
  R f f' -> mapOutcome fst (processQuery a f) = mapOutcome fst (processQuery a f').
Hypothesis R_append : forall f f' q,
  R f f' -> R (setQueries f (queries f ++ [q])) (setQueries f' (queries f' ++ [q])).

Lemma extractAt_sim (i : nat) (args : list Node) (f f' : queryFinder) :
  R f f' -> relatedBy R (extractAt i args f) (extractAt i args f').
Proof using R_resolve R_append.
  intros H. unfold extractAt, bind, indexArgs.
  destruct (args !! i) as [a|]; [|done]. cbn [ret].
  pose proof (R_resolve f f' a H) as E.
  destruct (processQuery a f) as [[q g]| |] eqn:E1;
    destruct (processQuery a f') as [[q' g']| |] eqn:E2; cbn in E; try discriminate.
  - injection E as <-.
    apply processQuery_reads in E1 as ->. apply processQuery_reads in E2 as ->.
    destruct (decide (q = "")); cbn; split; auto.
  - by injection E.
  - done.
Qed.

Lemma Visit_sim (node : option Node) (f f' : queryFinder) :
  R f f' -> relatedBy R (Visit node f) (Visit node f').
Proof using R_resolve R_append.
  intros H. destruct node as [node|]; [|by split].
  destruct (qualifying_dec node) as [Q|Q].
  - destruct (Visit_qualifying _ Q) as (x & sel & args & i & -> & _ & E).
    rewrite !E. by apply extractAt_sim.
  - rewrite !Visit_not_qualifying by done. by split.
Qed.

Lemma walkList_sim_of (l : list Node) :
  Forall (fun c => forall f f', R f f' -> relatedBy R (Walk c f) (Walk c f')) l ->
  forall f f', R f f' -> relatedBy R (walkList l f) (walkList l f').
Proof using Type.
  induction 1 as [|c l Hc _ IH]; intros f f' H; [by split|].
  cbn [walkList]. unfold bind. specialize (Hc f f' H).
  destruct (Walk c f) as [[[] g]| |], (Walk c f') as [[[] g']| |]; try done;
    try (destruct Hc as [_ Hg]; by apply IH).
Qed.

Lemma Walk_sim (node : Node) (f f' : queryFinder) :
  R f f' -> relatedBy R (Walk node f) (Walk node f').
Proof using R_resolve R_append.
  revert f f'. induction node as [node IH] using Node_children_ind.
  intros f f' H. rewrite !Walk_unfold. unfold bind.
  pose proof (Visit_sim (Some node) f f' H) as Hv.
  destruct (Visit (Some node) f) as [[w g]| |],
    (Visit (Some node) f') as [[w' g']| |]; try done.
  destruct Hv as [<- Hg]. destruct w; [|by split].
  pose proof (walkList_sim_of _ IH g g' Hg) as Hl.
  destruct (walkList (children node) g) as [[[] h]| |],
    (walkList (children node) g') as [[[] h']| |]; try done;
    try (destruct Hl as [_ Hh]; by split).
Qed.

Lemma walkList_sim (l : list Node) (f f' : queryFinder) :
  R f f' -> relatedBy R (walkList l f) (walkList l f').
Proof using R_resolve R_append.
  apply walkList_sim_of. apply Forall_forall. intros c _ g g'. apply Walk_sim.
Qed.

End Simulation.

(** ** The order of the definitions *)

Lemma constDefs_Permutation (name : string) (defs defs' : list Binding) :
  defs ≡ₚ defs' -> constDefs name defs ≡ₚ constDefs name defs'.
Proof.
  induction 1 as [|[k [e|]] l l' _ IH|[k1 [e1|]] [k2 [e2|]] l|l l' l'' _ IH1 _ IH2]; cbn;
    try done; repeat case_decide; try done; try (by constructor).
  by etrans.
Qed.

Lemma alikeButAmbiguous_resolve (f f' : queryFinder) (a : Node) :
  alikeButAmbiguous f f' ->
  mapOutcome fst (processQuery a f) = mapOutcome fst (processQuery a f').
Proof.
  intros (Hn & _ & Ht). destruct a as [k v|name|x sel|fn args|cs]; try reflexivity.
  cbn. unfold bind, get. rewrite <- Hn.
  destruct (decide (name ∈ nonUniqueNames f)) as [H|H]; [done|].
  cbn. unfold mapIndex. by rewrite (Ht _ H).
Qed.

Lemma alikeButAmbiguous_append (f f' : queryFinder) (q : string) :
  alikeButAmbiguous f f' ->
  alikeButAmbiguous (setQueries f (queries f ++ [q])) (setQueries f' (queries f' ++ [q])).
Proof. intros (Hn & Hq & Ht). repeat split; cbn; [done|by rewrite Hq|done]. Qed.

Lemma collectConstants_alike (defs defs' : list Binding) :
  defs ≡ₚ defs' -> alikeButAmbiguous (collectConstants defs) (collectConstants defs').
Proof.
  intros Hp.
  assert (Hl : forall name, length (constDefs name defs) = length (constDefs name defs')).
  { intros name. apply Permutation_length. by apply constDefs_Permutation. }
  assert (Hn : forall name d,
             name ∈ nonUniqueNames (collectConstants d) <-> 2 <= length (constDefs name d)).
  { intros name d. unfold collectConstants. rewrite collectFrom_nonUniqueNames. cbn.
    rewrite lookup_empty. split; [|by right].
    intros [H|H]; [by apply not_elem_of_empty in H|done]. }
  split; [|split].
  - apply set_eq. intros name. by rewrite !Hn, Hl.
  - unfold collectConstants. by rewrite !collectFrom_queries.
  - intros name H. rewrite Hn in H. unfold collectConstants.
    rewrite !collectFrom_packageInfo. cbn. rewrite lookup_empty.
    pose proof (constDefs_Permutation name _ _ Hp) as Hc.
    destruct (constDefs name defs) as [|v [|w rest]]; cbn in H.
    + by apply Permutation_nil_l in Hc as ->.
    + by apply Permutation_singleton_l in Hc as ->.
    + lia.
Qed.

(** X6. The order in which the definitions are ranged over does not show
    in the result of the core: the same queries in the same order, or the
    same fatal message, or a panic in both, and so the same generated
    code. *)
Theorem definition_order_does_not_show (defs defs' : list Binding)
    (packageName importPath : string) (files : list Node) :
  defs ≡ₚ defs' ->
  run defs files = run defs' files /\
  generated defs packageName importPath files
  = generated defs' packageName importPath files.
Proof.
  intros Hp.
  assert (E : run defs files = run defs' files).
  { pose proof (walkList_sim alikeButAmbiguous alikeButAmbiguous_resolve
                  alikeButAmbiguous_append files _ _ (collectConstants_alike _ _ Hp)) as H.
    unfold run, walkFiles.
    destruct (walkList files (collectConstants defs)) as [[[] g]| |],
      (walkList files (collectConstants defs')) as [[[] g']| |]; try done.
    - destruct H as (_ & _ & -> & _). reflexivity.
    - by rewrite H. }
  split; [exact E|]. unfold generated. by rewrite E.
Qed.

(** ** Trees without qualifying calls *)

Lemma occursIn_child (n c root : Node) :
  c ∈ children root -> occursIn n c -> occursIn n root.
Proof. apply occurs_below. Qed.

Lemma walkList_unchanged (l : list Node) (f : queryFinder) :
  Forall (fun c => Walk c f = Ok (tt, f)) l -> walkList l f = Ok (tt, f).
Proof.
  induction 1 as [|c l Hc _ IH]; [done|].
  cbn [walkList]. unfold bind. by rewrite Hc.
Qed.

Lemma Walk_no_qualifying (root : Node) (f : queryFinder) :
  (forall n, occursIn n root -> ~ qualifying n) -> Walk root f = Ok (tt, f).
Proof.
  induction root as [root IH] using Node_children_ind. intros H.
  rewrite Walk_not_qualifying by (apply H; constructor).
  apply walkList_unchanged. rewrite Forall_forall in IH. apply Forall_forall.
  intros c Hc. apply IH; [done|]. intros n Hn. apply H. by eapply occursIn_child.
Qed.

(** X7. When no node of the files is a call of a method of the table, the
    traversal leaves the finder as it was: the core returns the empty
    list, whatever the definitions, and [main] generates the code with
    the empty braces. *)
Theorem no_qualifying_call_no_query (defs : list Binding) (packageName importPath : string)
    (files : list Node) :
  (forall file n, file ∈ files -> occursIn n file -> ~ qualifying n) ->
  (forall f, walkFiles files f = Ok (tt, f)) /\
  run defs files = Ok [] /\
  generated defs packageName importPath files
  = Ok (codeHeader packageName importPath +:+ "}" +:+ newline +:+ "}").
Proof.
  intros H.
  assert (Hw : forall f, walkFiles files f = Ok (tt, f)).
  { intros f. apply walkList_unchanged. apply Forall_forall. intros file Hf.
    apply Walk_no_qualifying. intros n. by apply H. }
  assert (Hr : run defs files = Ok []).
  { unfold run. rewrite Hw. unfold collectConstants. by rewrite collectFrom_queries. }
  split; [exact Hw|]. split; [exact Hr|].
  unfold generated. rewrite Hr. cbn [mapOutcome]. f_equal.
  apply generateCode_nil.
Qed.

(** ** When the traversal returns *)

Lemma extractAt_returns (i : nat) (args : list Node) (f : queryFinder) :
  i < length args ->
  (forall name, args !! i = Some (Ident name) -> name ∉ nonUniqueNames f) ->
  exists f', extractAt i args f = Ok (false, f').
Proof.
  intros Hi Hn. destruct (lookup_lt_is_Some_2 args i Hi) as [a Ha].
  destruct (processQuery a f) as [[q g]| |] eqn:E.
  - pose proof (processQuery_reads _ _ _ _ E) as ->.
    rewrite (extractAt_value _ _ _ _ _ Ha E). eauto.
  - apply processQuery_fatal_only_ambiguous in E as (name & -> & Hin & _).
    by destruct (Hn name Ha).
  - by destruct (processQuery_never_panics a f).
Qed.

Lemma walkList_returns_of (S : gset string) (l : list Node) :
  Forall (fun c => forall f, nonUniqueNames f = S -> exists f', Walk c f = Ok (tt, f')) l ->
  forall f, nonUniqueNames f = S -> exists f', walkList l f = Ok (tt, f').
Proof.
  induction 1 as [|c l Hc _ IH]; intros f Hf; [by exists f|].
  cbn [walkList]. unfold bind. destruct (Hc f Hf) as [g E]. rewrite E.
  apply IH. rewrite <- Hf. apply extends_nonUniqueNames. by eapply Walk_extends.
Qed.

Lemma Walk_returns (S : gset string) (root : Node) :
  (forall x sel args i,
     occursIn (qualifyingCall x sel args) root ->
     methodSignatureTable !! sel = Some i ->
     i < length args /\ forall name, args !! i = Some (Ident name) -> name ∉ S) ->
  forall f, nonUniqueNames f = S -> exists f', Walk root f = Ok (tt, f').
Proof.
  induction root as [root IH] using Node_children_ind. intros H f Hf.
  destruct (qualifying_dec root) as [Q|Q].
  - rewrite (Walk_qualifying _ _ Q).
    destruct (Visit_qualifying _ Q) as (x & sel & args & i & -> & Hi & E).
    rewrite E.
    assert (Hs : methodSignatureTable !! sel = Some i) by (by apply signature_cases).
    destruct (H x sel args i (occurs_here _) Hs) as [Hlen Hn].
    destruct (extractAt_returns i args f Hlen) as [f' ->]; [by rewrite Hf|]. eauto.
  - rewrite Walk_not_qualifying by done.
    apply (walkList_returns_of S); [|done].
    rewrite Forall_forall in IH. apply Forall_forall. intros c Hc. apply IH; [done|].
    intros x sel args i Ho Hs. apply (H x sel args i); [|done].
    by eapply occursIn_child.
Qed.

(** X8. The traversal returns when every recognized call in the files
    has an argument at the index of its query and none of these arguments
    is a name with two or more constant definitions: the core then yields
    a list of queries, and neither a fatal message nor a panic. *)
Theorem well_formed_package_is_traversed (defs : list Binding) (files : list Node) :
  (forall file x sel args i,
     file ∈ files ->
     occursIn (qualifyingCall x sel args) file ->
     methodSignatureTable !! sel = Some i ->
     i < length args /\
     forall name, args !! i = Some (Ident name) -> length (constDefs name defs) < 2) ->
  exists qs, run defs files = Ok qs.
Proof.
  intros H.
  assert (Hn : forall name,
             length (constDefs name defs) < 2 ->
             name ∉ nonUniqueNames (collectConstants defs)).
  { intros name Hl. unfold collectConstants. rewrite collectFrom_nonUniqueNames. cbn.
    rewrite lookup_empty. intros [E|E]; [by apply not_elem_of_empty in E|lia]. }
  destruct (walkList_returns_of (nonUniqueNames (collectConstants defs)) files)
    with (f := collectConstants defs) as [f' E]; [|done|].
  - apply Forall_forall. intros file Hf. apply Walk_returns.
    intros x sel args i Ho Hs. destruct (H file x sel args i Hf Ho Hs) as [Hl Hd].
    split; [done|]. intros name Ha. apply Hn. by apply Hd.
  - exists (queries f'). unfold run, walkFiles. by rewrite E.
Qed.

(** ** Where the queries come from *)

Lemma sourceIn_same_tables (f g : queryFinder) (root : Node) (q : string) :
  packageInfo f = packageInfo g -> nonUniqueNames f = nonUniqueNames g ->
  sourceIn f root q -> sourceIn g root q.
Proof.
  intros Ht Hn (x & sel & args & i & a & Ho & Hs & Ha & Hr).
  exists x, sel, args, i, a. repeat split; try done.
  destruct Hr as [Hr|(name & -> & Hl & Hin)]; [by left|right].
  exists name. by rewrite <- Ht, <- Hn.
Qed.

Lemma sourceIn_child (f : queryFinder) (c root : Node) (q : string) :
  c ∈ children root -> sourceIn f c q -> sourceIn f root q.
Proof.
  intros Hc (x & sel & args & i & a & Ho & H). exists x, sel, args, i, a.
  split; [by eapply occursIn_child|done].
Qed.

Lemma processQuery_resolvesTo (a : Node) (f g : queryFinder) (q : string) :
  processQuery a f = Ok (q, g) -> q <> "" -> resolvesTo f a q.
Proof.
  destruct a as [k v|name|x sel|fn args|cs]; cbn; unfold bind, get, ret;
    try (by intros [= <- _]).
  - intros [= <- _] _. left. eauto.
  - destruct (decide (name ∈ nonUniqueNames f)) as [H|H]; [done|].
    unfold mapIndex. intros [= <- _] Hq. right. exists name.
    destruct (packageInfo f !! name); done.
Qed.

Lemma Visit_source (node : Node) (f f' : queryFinder) (w : bool) :
  Visit (Some node) f = Ok (w, f') ->
  f' = f \/ exists q, q <> "" /\ f' = setQueries f (queries f ++ [q]) /\ sourceIn f node q.
Proof.
  destruct (qualifying_dec node) as [Q|Q].
  - destruct (Visit_qualifying _ Q) as (x & sel & args & i & -> & Hi & E).
    rewrite E. unfold extractAt, bind, indexArgs.
    destruct (args !! i) as [a|] eqn:Ha; [|done]. cbn [ret].
    destruct (processQuery a f) as [[q g]| |] eqn:Ep; [|done..].
    pose proof (processQuery_reads _ _ _ _ Ep) as ->.
    destruct (decide (q = "")) as [->|Hq]; cbn; intros [= <- <-]; [by left|right].
    exists q. split; [done|]. split; [done|].
    exists x, sel, args, i, a. split; [constructor|].
    split; [by apply signature_cases|]. split; [done|].
    by eapply processQuery_resolvesTo.
  - rewrite Visit_not_qualifying by done. intros [= <- <-]. by left.
Qed.

Lemma walkList_source_of (f0 : queryFinder) (root : Node) (l : list Node) :
  (forall c, c ∈ l -> c ∈ children root) ->
  Forall (fun c => forall f f', extends f0 f -> Walk c f = Ok (tt, f') ->
            exists found, f' = setQueries f (queries f ++ found) /\
                          Forall (fun q => q <> "" /\ sourceIn f0 c q) found) l ->
  forall f f', extends f0 f -> walkList l f = Ok (tt, f') ->
    exists found, f' = setQueries f (queries f ++ found) /\
                  Forall (fun q => q <> "" /\ sourceIn f0 root q) found.
Proof.
  intros Hin Hall. induction Hall as [|c l Hc _ IH]; intros f f' Hf.
  - intros [= <-]. exists []. split; [|done].
    destruct f. unfold setQueries; cbn. by rewrite app_nil_r.
  - cbn [walkList]. unfold bind.
    destruct (Walk c f) as [[[] g]| |] eqn:E; [|done..]. intros El.
    destruct (Hc f g Hf E) as (n1 & -> & H1).
    destruct (IH (fun c' H' => Hin c' (list_elem_of_further _ _ _ H'))
                 (setQueries f (queries f ++ n1)) f') as (n2 & -> & H2); [|done|].
    { eapply extends_trans; [exact Hf|]. by exists n1. }
    exists (n1 ++ n2). split.
    + unfold setQueries; cbn. by rewrite app_assoc.
    + apply Forall_app. split; [|done].
      eapply Forall_impl; [exact H1|]. intros q [Hq Hs]. split; [done|].
      eapply sourceIn_child; [|exact Hs]. apply Hin. by left.
Qed.

Lemma Walk_source (f0 : queryFinder) (root : Node) (f f' : queryFinder) :
  extends f0 f -> Walk root f = Ok (tt, f') ->
  exists found, f' = setQueries f (queries f ++ found) /\ Forall (fun q => q <> "" /\ sourceIn f0 root q) found.
Proof.
  revert f f'. induction root as [root IH] using Node_children_ind. intros f f' Hf.
  rewrite Walk_unfold. unfold bind.
  destruct (Visit (Some root) f) as [[w g]| |] eqn:Ev; [|done..].
  assert (Hv : exists n0, g = setQueries f (queries f ++ n0) /\ Forall (fun q => q <> "" /\ sourceIn f0 root q) n0).
  { apply Visit_source in Ev as [->|(q & Hq & -> & Hs)].
    - exists []. split; [|done]. destruct f. unfold setQueries; cbn. by rewrite app_nil_r.
    - exists [q]. split; [done|]. constructor; [|done]. split; [done|].
      revert Hs. apply sourceIn_same_tables;
        [by apply extends_packageInfo|by apply extends_nonUniqueNames]. }
  destruct Hv as (n0 & -> & H0). destruct w.
  - destruct (walkList (children root) (setQueries f (queries f ++ n0)))
      as [[[] h]| |] eqn:El; [|done..].
    cbn. intros [= <-].
    destruct (walkList_source_of f0 root (children root) (fun c H => H) IH _ _
                (extends_trans _ _ _ Hf (ex_intro _ n0 eq_refl)) El) as (n1 & -> & H1).
    exists (n0 ++ n1). split.
    + unfold setQueries; cbn. by rewrite app_assoc.
    + apply Forall_app. by split.
  - intros [= <-]. by exists n0.
Qed.

(** X9. Every query that the traversal adds to the list is not empty and
    is what the query argument of some recognized call in the files
    resolves to: the text of a literal, or the table's entry for a name
    that is not in the non-unique set.  What the list held before is kept
    in front. *)
Theorem found_queries_have_a_source (files : list Node) (f f' : queryFinder) :
  walkFiles files f = Ok (tt, f') ->
  exists found,
    queries f' = queries f ++ found /\
    forall q, q ∈ found ->
      q <> "" /\ exists file, file ∈ files /\ sourceIn f file q.
Proof.
  intros E.
  assert (Hall : Forall (fun c => forall g g', extends f g -> Walk c g = Ok (tt, g') ->
                   exists found, g' = setQueries g (queries g ++ found) /\
                                 Forall (fun q => q <> "" /\ sourceIn f c q) found) files).
  { apply Forall_forall. intros c _ g g'. apply Walk_source. }
  destruct (walkList_source_of f (OtherNode files) files (fun c H => H) Hall f f'
              (extends_refl f) E) as (found & -> & Hf).
  exists found. split; [done|]. intros q Hq.
  rewrite Forall_forall in Hf. destruct (Hf q Hq) as [Hne Hs]. split; [done|].
  destruct Hs as (x & sel & args & i & a & Ho & Hs).
  inversion Ho as [|file root Hfile Hin]; subst.
  exists file. split; [done|]. by exists x, sel, args, i, a.
Qed.

(** ** What is found is generated *)

Lemma reaches_kept (root : Node) (f0 : queryFinder) (call : Node) (f : queryFinder)
    (q : string) (f' : queryFinder) :
  reaches root f0 call f ->
  Visit (Some call) f = Ok (false, setQueries f (queries f ++ [q])) ->
  Walk root f0 = Ok (tt, f') ->
  q ∈ queries f'.
Proof.
  intros Hr Hv. revert f'.
  induction Hr as [node f|root f0 f1 f2 before c after node f Ev Hc Hb _ IH]; intros f'.
  - rewrite (Walk_not_visited_further _ _ _ Hv) by done. cbn. intros [= <-]. cbn.
    apply elem_of_app. right. by left.
  - rewrite Walk_unfold. unfold bind. rewrite Ev, Hc, walkList_app. unfold bind.
    rewrite Hb. cbn [walkList]. unfold bind.
    destruct (Walk c f2) as [[[] g]| |] eqn:Eg; [|done..].
    destruct (walkList after g) as [[[] h]| |] eqn:Eh; [|done..].
    cbn. intros [= <-]. apply walkList_extends in Eh as [new ->]. cbn.
    apply elem_of_app. left. by apply (IH Hv g).
Qed.

(** X10. A query that the visit of a call adds to the list, at a call that
    the traversal of the files comes to, is in the list that the core
    returns, is in the list that [uniqueStrings] makes of it, and has its
    line in the code that [main] generates. *)
Theorem found_query_is_generated (defs : list Binding) (packageName importPath : string)
    (files : list Node) (call : Node) (f : queryFinder) (q : string) (qs : list string) :
  reachesInFiles files (collectConstants defs) call f ->
  Visit (Some call) f = Ok (false, setQueries f (queries f ++ [q])) ->
  run defs files = Ok qs ->
  q ∈ qs /\
  q ∈ uniqueStrings qs /\
  exists before after,
    generated defs packageName importPath files
    = Ok (before +:+ codeLine q +:+ newline +:+ after).
Proof.
  intros (before & file & after & f1 & -> & Hb & Hr) Hv. unfold run, walkFiles.
  rewrite walkList_app. unfold bind. rewrite Hb. cbn [walkList]. unfold bind.
  destruct (Walk file f1) as [[[] g]| |] eqn:Eg; [|done..].
  destruct (walkList after g) as [[[] h]| |] eqn:Eh; [|done..].
  intros [= <-].
  assert (Hq : q ∈ queries h).
  { apply walkList_extends in Eh as [new ->]. cbn. apply elem_of_app. left.
    by apply (reaches_kept _ _ _ _ _ _ Hr Hv). }
  assert (Hu : q ∈ uniqueStrings (queries h)).
  { by apply elem_of_uniqueStringsIn; [apply rangeOf_elements|]. }
  split; [done|]. split; [done|].
  destruct (generateCode_has_line packageName importPath _ _ Hu) as (b & a & E).
  exists b, a. unfold generated, run, walkFiles.
  rewrite walkList_app. unfold bind. rewrite Hb. cbn [walkList]. unfold bind.
  rewrite Eg, Eh. cbn. by rewrite E.
Qed.

(** ** The traversal of one list of files after another *)

(** X11. The core over one list of files followed by another yields the
    queries of the first list and then those of the second; when it does
    not return over the first list, it ends in the same way over the two
    together, whatever the second holds. *)
Theorem run_of_appended_files (defs : list Binding) (files1 files2 : list Node) :
  run defs (files1 ++ files2) =
  match run defs files1 with
  | Ok q1 => mapOutcome (app q1) (run defs files2)
  | Fatal msg => Fatal msg
  | Panic => Panic
  end.
Proof. rewrite !run_found. apply foundBy_app. Qed.

(** ** Load, Dir and AST *)

Lemma Load_first_clean (p : Package) (rest : list Package) :
  Errors p = [] -> Load (Value (p :: rest)) = Ok (Value p).
Proof. intros E. cbn. by rewrite E. Qed.

Lemma Load_first_error (p : Package) (rest : list Package) (e : string)
    (errs : list string) :
  Errors p = e :: errs -> Load (Value (p :: rest)) = Ok (Error e).
Proof. intros E. cbn. by rewrite E. Qed.

(** X12. [Load] does not panic: each of its index expressions stands
    behind a test of the length.  It returns a package exactly when the
    loader gave no error and a list that is not empty and whose first
    package has no errors; that package is the first, and the packages
    after the first are not looked at.  An empty list is the error
    [package not found]. *)
Theorem Load_guarded (loaded : Result (list Package)) :
  Load loaded <> Panic /\
  (forall msg, Load loaded <> Fatal msg) /\
  (forall p, Load loaded = Ok (Value p) <->
             exists rest, loaded = Value (p :: rest) /\ Errors p = []) /\
  (loaded = Value [] -> Load loaded = Ok (Error errPackageNotFound)) /\
  (forall p rest rest', loaded = Value (p :: rest) ->
     Load loaded = Load (Value (p :: rest'))) /\
  (forall p rest e errs, loaded = Value (p :: rest) -> Errors p = e :: errs ->
     Load loaded = Ok (Error e)).
Proof.
  assert (Hcases : (exists err, Load loaded = Ok (Error err)) \/
                   (exists p rest, loaded = Value (p :: rest) /\ Errors p = [] /\
                                   Load loaded = Ok (Value p))).
  { destruct loaded as [[|p rest]|err]; [left; by eexists| |left; by eexists].
    destruct (Errors p) as [|e errs] eqn:Ee.
    - right. exists p, rest. by rewrite (Load_first_clean _ _ Ee).
    - left. exists e. by apply (Load_first_error _ _ _ errs). }
  split; [|split; [|split; [|split; [|split]]]].
  - destruct Hcases as [[err ->]|(p & rest & _ & _ & ->)]; done.
  - intros msg. destruct Hcases as [[err ->]|(p & rest & _ & _ & ->)]; done.
  - intros p. split.
    + intros E. destruct Hcases as [[err E']|(q & rest & -> & Hq & E')];
        rewrite E' in E; [done|]. injection E as <-. eauto.
    + intros (rest & -> & Hp). by apply Load_first_clean.
  - by intros ->.
  - intros p rest rest' ->. destruct (Errors p) as [|e errs] eqn:Ee.
    + by rewrite !(Load_first_clean _ _ Ee).
    + by rewrite !(Load_first_error _ _ _ _ Ee).
  - intros p rest e errs ->. apply Load_first_error.
Qed.

(** X13. [Dir] does not panic.  It is the directory of the first Go file
    when the package has one, whatever its other files are; the directory
    of the first other file when it has no Go file; and the package path
    as it is, not a directory of it, when it has no file at all. *)
Theorem Dir_guarded (filepathDir : string -> string) (p : Package) :
  Dir filepathDir p <> Panic /\
  (forall file rest, GoFiles p = file :: rest ->
     Dir filepathDir p = Ok (filepathDir file)) /\
  (forall file rest, GoFiles p = [] -> OtherFiles p = file :: rest ->
     Dir filepathDir p = Ok (filepathDir file)) /\
  (GoFiles p = [] -> OtherFiles p = [] -> Dir filepathDir p = Ok (PkgPath p)).
Proof.
  unfold Dir. split; [|split; [|split]].
  - by destruct (GoFiles p ++ OtherFiles p).
  - intros file rest ->. reflexivity.
  - intros file rest -> ->. reflexivity.
  - intros -> ->. reflexivity.
Qed.

(** X14. [AST] does not panic, and its error, when it has one, is the
    error of the parser.  When the parsed directory has no package of the
    name of the loaded one, the result is a package of that name without
    files, and not an error; over its files the core returns the empty
    list whatever the definitions, and the code generated has the empty
    braces. *)
Theorem AST_missing_package (filepathDir : string -> string)
    (parseDir : string -> Result (gmap string AstPackage)) (p : Package) :
  AST filepathDir parseDir p <> Panic /\
  (forall err, AST filepathDir parseDir p = Ok (Error err) ->
     exists dir, Dir filepathDir p = Ok dir /\ parseDir dir = Error err) /\
  (forall dir pkgs,
     Dir filepathDir p = Ok dir -> parseDir dir = Value pkgs ->
     pkgs !! PkgName p = None ->
     exists ap,
       AST filepathDir parseDir p = Ok (Value ap) /\
       AstName ap = PkgName p /\
       forall defs importPath,
         run defs (AstFiles ap) = Ok [] /\
         generated defs (AstName ap) importPath (AstFiles ap)
         = Ok (codeHeader (PkgName p) importPath +:+ "}" +:+ newline +:+ "}")) /\
  (forall dir pkgs ap,
     Dir filepathDir p = Ok dir -> parseDir dir = Value pkgs ->
     pkgs !! PkgName p = Some ap ->
     AST filepathDir parseDir p = Ok (Value ap)).
Proof.
  assert (Hd : exists dir, Dir filepathDir p = Ok dir).
  { unfold Dir. destruct (GoFiles p ++ OtherFiles p) as [|file files]; cbn; eauto. }
  destruct Hd as [dir Hd]. unfold AST. rewrite Hd. cbn [bindOutcome].
  split; [|split; [|split]].
  - destruct (parseDir dir) as [pkgs|err]; [|done].
    by destruct (pkgs !! PkgName p).
  - intros err E. exists dir. split; [done|].
    destruct (parseDir dir) as [pkgs|err']; [|by injection E as ->].
    by destruct (pkgs !! PkgName p).
  - intros dir' pkgs [= <-] Ep Hk. rewrite Ep, Hk.
    exists {| AstName := PkgName p; AstFiles := [] |}. split; [done|]. split; [done|].
    intros defs importPath. cbn [AstFiles AstName].
    assert (Hr : run defs [] = Ok []).
    { unfold run, walkFiles. cbn. unfold collectConstants. by rewrite collectFrom_queries. }
    split; [exact Hr|]. unfold generated. rewrite Hr. cbn [mapOutcome]. f_equal.
    apply generateCode_nil.
  - intros dir' pkgs ap [= <-] Ep Hk. by rewrite Ep, Hk.
Qed.

(** ** main *)

Lemma run_of_walkFiles (defs : list Binding) (files : list Node) (f : queryFinder) :
  walkFiles files (collectConstants defs) = Ok (tt, f) -> run defs files = Ok (queries f).
Proof. intros E. unfold run. by rewrite E. Qed.

(** X15. [main] touches the file system last.  With an empty flag it
    prints the defaults and returns.  Otherwise, when it does anything to
    a file, the package was loaded, its sources parsed, the traversal
    returned and the path was found; the file is [prepared_statements.go]
    under that path, created first, and what is written to it is the code
    generated from the unique sorted queries of the traversal.  When the
    traversal ends with a fatal message or a panic, [main] ends in the
    same way with no file created. *)
Theorem main_touches_files_last (w : World) (sourcePackageName : string)
    (events : list Event) (exit : Exit) :
  main w sourcePackageName = (events, exit) ->
  (sourcePackageName = "" -> events = [PrintDefaults] /\ exit = Returned) /\
  (sourcePackageName <> "" ->
   events = [] \/
   exists sourcePackage astPackage qs path,
     Load (packagesLoad w sourcePackageName) = Ok (Value sourcePackage) /\
     AST (filepathDir w) (parserParseDir w) sourcePackage = Ok (Value astPackage) /\
     run (Defs sourcePackage) (AstFiles astPackage) = Ok qs /\
     getPathToPackage w sourcePackageName = Value path /\
     let name := filepathJoin w path "prepared_statements.go" in
     let code := generateCode (AstName astPackage) sourcePackageName (uniqueStrings qs) in
     osCreate w name = Value tt /\
     (events = [Create name] /\ (exists err, fileWrite w name code = Error err) /\
        exit <> Returned \/
      events = [Create name; Write name code; Close name] /\
        fileWrite w name code = Value tt /\ exit = Returned)) /\
  (forall sourcePackage astPackage,
     sourcePackageName <> "" ->
     Load (packagesLoad w sourcePackageName) = Ok (Value sourcePackage) ->
     AST (filepathDir w) (parserParseDir w) sourcePackage = Ok (Value astPackage) ->
     (forall msg, run (Defs sourcePackage) (AstFiles astPackage) = Fatal msg ->
        events = [] /\ exit = Exited msg) /\
     (run (Defs sourcePackage) (AstFiles astPackage) = Panic ->
        events = [] /\ exit = Panicked)).
Proof.
  intros E. unfold main in E. split; [|split].
  - intros ->. rewrite decide_True in E by done. by injection E as <- <-.
  - intros Hn. rewrite decide_False in E by done.
    destruct (Load (packagesLoad w sourcePackageName)) as [[sp|err]|msg|] eqn:El;
      try (injection E as <- _; by left).
    destruct (AST (filepathDir w) (parserParseDir w) sp) as [[ap|err]|msg|] eqn:Ea;
      try (injection E as <- _; by left).
    destruct (walkFiles (AstFiles ap) (collectConstants (Defs sp))) as [[[] f]|msg|] eqn:Ew;
      try (injection E as <- _; by left).
    destruct (getPathToPackage w sourcePackageName) as [path|err] eqn:Ep;
      try (injection E as <- _; by left).
    cbv zeta in E.
    destruct (osCreate w (filepathJoin w path "prepared_statements.go")) as [[]|err] eqn:Ec;
      try (injection E as <- _; by left).
    right. exists sp, ap, (queries f), path.
    split; [done|]. split; [done|]. split; [by apply run_of_walkFiles|]. split; [done|].
    cbv zeta. split; [done|].
    destruct (fileWrite w (filepathJoin w path "prepared_statements.go")
                (generateCode (AstName ap) sourcePackageName (uniqueStrings (queries f))))
      as [[]|err] eqn:Ef; injection E as <- <-.
    + right. done.
    + left. split; [done|]. split; [by exists err|done].
  - intros sp ap Hn El Ea. rewrite decide_False in E by done. rewrite El, Ea in E.
    unfold run. split.
    + intros msg Hr.
      destruct (walkFiles (AstFiles ap) (collectConstants (Defs sp))) as [[[] f]|msg'|];
        try done. injection Hr as ->. by injection E as <- <-.
    + intros Hr.
      destruct (walkFiles (AstFiles ap) (collectConstants (Defs sp))) as [[[] f]|msg'|];
        try done. by injection E as <- <-.
Qed.

(** ** The further properties on sample packages *)

Lemma occursIn_inv (n root : Node) :
  occursIn n root -> n = root \/ Exists (occursIn n) (children root).
Proof.
  intros [|c r Hc Ho]; [by left|right]. apply Exists_exists. eauto.
Qed.

(** The nodes of a tree that is written out, one after the other; [tac]
    is given the equation of each. *)
Ltac occurs_cases H tac :=
  apply occursIn_inv in H as [H|H]; [tac H|cbn [children] in H; occurs_exists H tac]
with occurs_exists H tac :=
  first [ apply Exists_nil in H; destruct H
        | apply Exists_cons in H as [H|H]; [occurs_cases H tac|occurs_exists H tac] ].

Lemma uniqueStrings_sorted_members_witness :
  let unique := uniqueStringsIn (fun m => reverse (elements m)) ["b"; "a"; "b"] in
  (forall s, s ∈ unique <-> s ∈ ["b"; "a"; "b"]) /\
  NoDup unique /\
  (forall i j s t, i < j -> unique !! i = Some s -> unique !! j = Some t ->
     stringLe s t /\ s <> t).
Proof.
  apply (uniqueStrings_sorted_members (fun m => reverse (elements m)) ["b"; "a"; "b"]).
  apply rangeOf_reverse.
Defined.

Lemma uniqueStrings_canonical_witness :
  uniqueStringsIn elements ["b"; "a"; "b"]
  = uniqueStringsIn (fun m => reverse (elements m)) ["a"; "b"].
Proof.
  apply (uniqueStrings_canonical elements (fun m => reverse (elements m))
           ["b"; "a"; "b"] ["a"; "b"]).
  - apply rangeOf_elements.
  - apply rangeOf_reverse.
  - intros s. rewrite !elem_of_cons, elem_of_nil. tauto.
Defined.

Lemma uniqueStrings_length_witness :
  length (uniqueStrings ["b"; "a"; "b"]) <= 3 /\
  (uniqueStrings ["b"; "a"; "b"] = [] <-> ["b"; "a"; "b"] = []).
Proof.
  destruct (uniqueStrings_length elements ["b"; "a"; "b"] rangeOf_elements)
    as (_ & Hl & _ & He).
  split; [exact Hl|exact He].
Defined.

Lemma generateCode_lines_witness :
  generateCode "pkg" "example.com/pkg" [selectOne; quoted "SELECT 2"] =
  codeHeader "pkg" "example.com/pkg" +:+
  concatStrings (map codeLine [selectOne; quoted "SELECT 2"]) +:+
  newline +:+ tab +:+ "}" +:+ newline +:+ "}".
Proof.
  apply (proj1 (proj2 (generateCode_lines "pkg" "example.com/pkg"
                         [selectOne; quoted "SELECT 2"]))).
  discriminate.
Defined.

Lemma file_order_does_not_show_witness :
  exists qs',
    run twiceQ [fileB; fileA] = Ok qs' /\
    [selectOne; quoted "SELECT 2"] ≡ₚ qs' /\
    uniqueStrings qs' = uniqueStrings [selectOne; quoted "SELECT 2"] /\
    generated twiceQ "pkg" "example.com/pkg" [fileB; fileA]
    = generated twiceQ "pkg" "example.com/pkg" [fileA; fileB].
Proof.
  apply (file_order_does_not_show twiceQ "pkg" "example.com/pkg" [fileA; fileB]
           [fileB; fileA] [selectOne; quoted "SELECT 2"]).
  - apply perm_swap.
  - vm_compute. reflexivity.
Defined.

Lemma definition_order_does_not_show_witness :
  run twiceQ [fileA; fileB] = run (reverse twiceQ) [fileA; fileB] /\
  generated twiceQ "pkg" "example.com/pkg" [fileA; fileB]
  = generated (reverse twiceQ) "pkg" "example.com/pkg" [fileA; fileB].
Proof.
  apply (definition_order_does_not_show twiceQ (reverse twiceQ)).
  symmetry. apply reverse_Permutation.
Defined.

Lemma no_qualifying_call_no_query_witness :
  run twiceQ [fileC] = Ok [] /\
  generated twiceQ "pkg" "example.com/pkg" [fileC]
  = Ok (codeHeader "pkg" "example.com/pkg" +:+ "}" +:+ newline +:+ "}").
Proof.
  destruct (no_qualifying_call_no_query twiceQ "pkg" "example.com/pkg" [fileC])
    as (_ & Hr & Hg).
  - intros file n Hf Ho. apply list_elem_of_singleton in Hf as ->.
    unfold fileC in Ho.
    occurs_cases Ho ltac:(fun E =>
      rewrite E; first [by intros []|by (intros Q; vm_compute in Q)]).
  - split; [exact Hr|exact Hg].
Defined.

Lemma well_formed_package_is_traversed_witness :
  exists qs, run twiceQ [fileA; fileB; fileC] = Ok qs.
Proof.
  apply (well_formed_package_is_traversed twiceQ [fileA; fileB; fileC]).
  intros file x sel args i Hf Ho Hs.
  assert (Hcall : args = [ctx; BasicLit STRING selectOne] /\ i = 1 \/
                  args = [ctx; Ident "dest"; Ident "R"] /\ i = 2).
  { repeat (apply elem_of_cons in Hf as [->|Hf]); [| | |by apply elem_of_nil in Hf].
    - unfold fileA in Ho.
      occurs_cases Ho ltac:(fun E => try discriminate E).
      injection Ho as -> -> ->. left. split; [done|]. vm_compute in Hs. congruence.
    - unfold fileB in Ho.
      occurs_cases Ho ltac:(fun E => try discriminate E).
      injection Ho as -> -> ->. right. split; [done|]. vm_compute in Hs. congruence.
    - unfold fileC in Ho.
      occurs_cases Ho ltac:(fun E => try discriminate E).
      injection Ho as -> -> ->. vm_compute in Hs. discriminate. }
  destruct Hcall as [[-> ->]|[-> ->]]; (split; [cbn; lia|]).
  - intros name [=].
  - intros name [= <-]. vm_compute. lia.
Defined.

Lemma found_queries_have_a_source_witness :
  exists found,
    [quoted "SELECT 0"; selectOne; quoted "SELECT 2"] = [quoted "SELECT 0"] ++ found /\
    forall q, q ∈ found ->
      q <> "" /\
      exists file, file ∈ [fileA; fileB] /\
                   sourceIn (setQueries (collectConstants twiceQ) [quoted "SELECT 0"]) file q.
Proof.
  apply (found_queries_have_a_source [fileA; fileB]
           (setQueries (collectConstants twiceQ) [quoted "SELECT 0"])
           (setQueries (collectConstants twiceQ)
              [quoted "SELECT 0"; selectOne; quoted "SELECT 2"])).
  vm_compute. reflexivity.
Defined.

Lemma found_query_is_generated_witness :
  selectOne ∈ uniqueStrings [selectOne] /\
  exists before after,
    generated twiceQ "pkg" "example.com/pkg" [fileA]
    = Ok (before +:+ codeLine selectOne +:+ newline +:+ after).
Proof.
  destruct (found_query_is_generated twiceQ "pkg" "example.com/pkg" [fileA]
              (qualifyingCall db "ExecContext" [ctx; BasicLit STRING selectOne])
              (collectConstants twiceQ) selectOne [selectOne]) as (_ & Hu & Hg).
  - apply reachesInFiles_only_child. cbn. tauto.
  - vm_compute. reflexivity.
  - vm_compute. reflexivity.
  - split; [exact Hu|exact Hg].
Defined.

Lemma Load_guarded_witness :
  Load (Value [cleanPackage; brokenPackage]) = Ok (Value cleanPackage) /\
  Load (Value [brokenPackage; cleanPackage]) = Ok (Error "a.go:1:1: expected 'package'") /\
  Load (Value []) = Ok (Error "package not found").
Proof.
  split; [|split].
  - apply (proj1 (proj2 (proj2 (Load_guarded (Value [cleanPackage; brokenPackage]))))).
    by exists [brokenPackage].
  - apply (proj2 (proj2 (proj2 (proj2 (proj2
             (Load_guarded (Value [brokenPackage; cleanPackage]))))))
             brokenPackage [cleanPackage] _ ["b.go:2:1: undefined: x"]); reflexivity.
  - by apply (proj1 (proj2 (proj2 (proj2 (Load_guarded (Value []))))) ).
Defined.

Lemma Dir_guarded_witness :
  Dir sampleDir cleanPackage = Ok "/src/pkg" /\
  Dir sampleDir brokenPackage = Ok "example.com/pkg".
Proof.
  split.
  - apply (proj1 (proj2 (Dir_guarded sampleDir cleanPackage))
             "/src/pkg/a.go" ["/src/pkg/b.go"]). reflexivity.
  - apply (proj2 (proj2 (proj2 (Dir_guarded sampleDir brokenPackage)))); reflexivity.
Defined.

Lemma AST_missing_package_witness :
  exists ap,
    AST sampleDir sampleParse cleanPackage = Ok (Value ap) /\
    AstName ap = "pkg" /\
    forall defs importPath,
      run defs (AstFiles ap) = Ok [] /\
      generated defs (AstName ap) importPath (AstFiles ap)
      = Ok (codeHeader "pkg" importPath +:+ "}" +:+ newline +:+ "}").
Proof.
  apply (proj1 (proj2 (proj2 (AST_missing_package sampleDir sampleParse cleanPackage)))
           "/src/pkg" {[ "pkg_test" := {| AstName := "pkg_test"; AstFiles := [fileA] |} ]});
    [reflexivity|reflexivity|].
  vm_compute. reflexivity.
Defined.

Lemma main_touches_files_last_witness :
  let name := "/src/pkg/prepared_statements.go" in
  let code := generateCode "pkg" "example.com/pkg" [selectOne; quoted "SELECT 2"] in
  main sampleWorld "example.com/pkg" = ([Create name; Write name code; Close name], Returned) /\
  ([Create name; Write name code; Close name] = [] \/
   exists sourcePackage astPackage qs path,
     Load (packagesLoad sampleWorld "example.com/pkg") = Ok (Value sourcePackage) /\
     AST (filepathDir sampleWorld) (parserParseDir sampleWorld) sourcePackage
     = Ok (Value astPackage) /\
     run (Defs sourcePackage) (AstFiles astPackage) = Ok qs /\
     getPathToPackage sampleWorld "example.com/pkg" = Value path).
Proof.
  intros name code.
  assert (E : main sampleWorld "example.com/pkg"
              = ([Create name; Write name code; Close name], Returned))
    by (vm_compute; reflexivity).
  split; [exact E|].
  destruct (proj1 (proj2 (main_touches_files_last sampleWorld "example.com/pkg" _ _ E)))
    as [H|(sp & ap & qs & path & Hl & Ha & Hr & Hp & _)].
  - discriminate.
  - left. exact H.
  - right. exists sp, ap, qs, path.
    split; [exact Hl|]. split; [exact Ha|]. split; [exact Hr|exact Hp].
Defined.
